(** * Admission control: memory requirements and admission decisions

    A shallow embedding of the admission engine of the query service:
    - [be/src/scheduling/query-schedule.cc]: [GetClusterMemoryToAdmit] and
      [UpdateMemoryRequirements];
    - [be/src/scheduling/admission-controller.h]: [AdmissionOutcome],
      [PoolStats] and [EffectiveMemReserved], the host memory maps and the
      request queue.

    [admission-controller.cc] is not among the sources: what the header
    only declares is modelled from the specification and from the header's
    comments, and marked so. Helpers declared elsewhere are parameters.

    [int64_t] values are integers of [Z]; where the code computes with them
    beyond comparisons, the 64-bit wrap-around is written out. *)

From Stdlib Require Import ZArith Lia Bool.
From stdpp Require Import base option list gmap strings sorting.

Local Open Scope Z_scope.

(** ** 64-bit integers *)

Module Int64.

Definition modulus : Z := 2 ^ 64.
Definition min_value : Z := - 2 ^ 63.
Definition max_value : Z := 2 ^ 63 - 1.

Definition in_range (x : Z) : Prop := min_value <= x <= max_value.

(** Conversion of an [int64_t] to [uint64_t]: the value modulo [2^64]. *)
Definition to_unsigned (x : Z) : Z := x mod modulus.

(** Conversion of a [uint64_t] back to [int64_t] (two's complement). *)
Definition to_signed (u : Z) : Z :=
  let r := u mod modulus in
  if r <? 2 ^ 63 then r else r - modulus.

(** [std::max(a, b)] is [(a < b) ? b : a]. *)
Definition std_max (a b : Z) : Z := if a <? b then b else a.

(** [std::min(a, b)] is [(b < a) ? b : a]. *)
Definition std_min (a b : Z) : Z := if b <? a then b else a.

(** Multiplying an [int64_t] by a [size_t]: the signed operand is converted
    to unsigned, the product is taken modulo [2^64], and the result is
    converted back on return. *)
Definition mul_size (a : Z) (n : nat) : Z :=
  to_signed ((to_unsigned a * Z.of_nat n) mod modulus).

End Int64.

(** ** Thrift structures read by the admission engine *)

(** A backend address ([TNetworkAddress], printed as host:port). *)
Abbreviation TNetworkAddress := string.

(** The Thrift structures are declared outside the sources at hand; these
    records hold the fields the code and the spec read.

    The query options: [mem_limit] and its [__isset] flag. *)
Record TQueryOptions := {
  isset_mem_limit : bool;
  mem_limit : Z;
}.

(** The part of the execution request read here: the planner's per-host
    memory estimate. *)
Record TQueryExecRequest := {
  per_host_mem_estimate : Z;
}.

(** The pool configuration ([TPoolConfig]): the fixed limits of the spec's
    PoolConfig and the three fields [UpdateMemoryRequirements] reads. *)
Record TPoolConfig := {
  max_requests : Z;
  max_queued : Z;
  max_mem_resources : Z;
  queue_timeout_ms : Z;
  min_query_mem_limit : Z;
  max_query_mem_limit : Z;
  clamp_mem_limit_query_option : bool;
}.

(** Per-backend execution parameters; only their number and their hosts
    matter to admission. *)
Record BackendExecParams := {
  num_instances : nat;
}.

(** ** query-schedule.cc *)

Module QuerySchedule.

Import Int64.

(** The members of [QuerySchedule] that admission reads and writes
    (query-schedule.h is not among the sources). *)
Record t := {
  query_id : nat;
  request_pool : string;
  request : TQueryExecRequest;
  query_options : TQueryOptions;
  largest_min_reservation : Z;
  per_backend_exec_params : gmap TNetworkAddress BackendExecParams;
  per_backend_mem_to_admit : Z;
  per_backend_mem_limit : Z;
}.

Definition set_per_backend_mem_to_admit (v : Z) (this : t) : t :=
  {| query_id := query_id this;
     request_pool := request_pool this;
     request := request this;
     query_options := query_options this;
     largest_min_reservation := largest_min_reservation this;
     per_backend_exec_params := per_backend_exec_params this;
     per_backend_mem_to_admit := v;
     per_backend_mem_limit := per_backend_mem_limit this |}.

Definition set_per_backend_mem_limit (v : Z) (this : t) : t :=
  {| query_id := query_id this;
     request_pool := request_pool this;
     request := request this;
     query_options := query_options this;
     largest_min_reservation := largest_min_reservation this;
     per_backend_exec_params := per_backend_exec_params this;
     per_backend_mem_to_admit := per_backend_mem_to_admit this;
     per_backend_mem_limit := v |}.

Definition set_query_options (o : TQueryOptions) (this : t) : t :=
  {| query_id := query_id this;
     request_pool := request_pool this;
     request := request this;
     query_options := o;
     largest_min_reservation := largest_min_reservation this;
     per_backend_exec_params := per_backend_exec_params this;
     per_backend_mem_to_admit := per_backend_mem_to_admit this;
     per_backend_mem_limit := per_backend_mem_limit this |}.

(** [GetPerHostMemoryEstimate]: the planner's estimate (the [DCHECK] that it
    is set is a debug assertion). *)
Definition GetPerHostMemoryEstimate (this : t) : Z :=
  per_host_mem_estimate (request this).

(** [GetClusterMemoryToAdmit]: an [int64_t] times a [size_t]. *)
Definition GetClusterMemoryToAdmit (this : t) : Z :=
  mul_size (per_backend_mem_to_admit this) (size (per_backend_exec_params this)).

(** The value that means no memory limit. *)
Definition no_mem_limit : Z := -1.

(** [mimic_old_behaviour]: neither pool bound is set. *)
Definition mimic_old_behaviour (pool_cfg : TPoolConfig) : bool :=
  (min_query_mem_limit pool_cfg =? 0) && (max_query_mem_limit pool_cfg =? 0).

(** [has_query_option]: the [mem_limit] query option is set and positive. *)
Definition has_query_option (this : t) : bool :=
  isset_mem_limit (query_options this) && (0 <? mem_limit (query_options this)).

Section UpdateMemoryRequirements.

(** [ReservationUtil::GetMinMemLimitFromReservation] and
    [MemInfo::physical_mem()] are declared outside this file; both return
    an [int64_t]. *)
Variable GetMinMemLimitFromReservation : Z -> Z.
Variable physical_mem : Z.

(** Lines 251-265: the starting value of [per_backend_mem_to_admit_]. *)
Definition InitMemToAdmit (pool_cfg : TPoolConfig) (this : t) : t :=
  let this := set_per_backend_mem_to_admit 0 this in
  let this :=
    if has_query_option this
    then set_per_backend_mem_to_admit (mem_limit (query_options this)) this
    else this in
  if negb (has_query_option this) then
    let this := set_per_backend_mem_to_admit (GetPerHostMemoryEstimate this) this in
    if negb (mimic_old_behaviour pool_cfg) then
      let min_mem_limit_required :=
        GetMinMemLimitFromReservation (largest_min_reservation this) in
      set_per_backend_mem_to_admit
        (std_max (per_backend_mem_to_admit this) min_mem_limit_required) this
    else this
  else this.

(** Lines 267-276: clamping by the pool's bounds. *)
Definition ClampMemToAdmit (pool_cfg : TPoolConfig) (this : t) : t :=
  if negb (has_query_option this) || clamp_mem_limit_query_option pool_cfg then
    let this :=
      if 0 <? min_query_mem_limit pool_cfg
      then set_per_backend_mem_to_admit
             (std_max (per_backend_mem_to_admit this) (min_query_mem_limit pool_cfg)) this
      else this in
    if 0 <? max_query_mem_limit pool_cfg
    then set_per_backend_mem_to_admit
           (std_min (per_backend_mem_to_admit this) (max_query_mem_limit pool_cfg)) this
    else this
  else this.

(** Line 280: the cap at the physical memory of a backend. *)
Definition CapMemToAdmit (this : t) : t :=
  set_per_backend_mem_to_admit
    (std_min (per_backend_mem_to_admit this) physical_mem) this.

(** Lines 282-286: the enforced limit. *)
Definition SetMemLimit (pool_cfg : TPoolConfig) (this : t) : t :=
  if mimic_old_behaviour pool_cfg && negb (has_query_option this)
  then set_per_backend_mem_limit no_mem_limit this
  else set_per_backend_mem_limit (per_backend_mem_to_admit this) this.

Definition UpdateMemoryRequirements (pool_cfg : TPoolConfig) (this : t) : t :=
  SetMemLimit pool_cfg
    (CapMemToAdmit (ClampMemToAdmit pool_cfg (InitMemToAdmit pool_cfg this))).

End UpdateMemoryRequirements.

End QuerySchedule.

(** ** admission-controller.h *)

Module AdmissionController.

Import Int64.

(** The admission outcome of a query. *)
Inductive AdmissionOutcome :=
  | ADMITTED
  | REJECTED_OR_TIMED_OUT
  | CANCELLED.

(** Why a request was rejected or left the queue unadmitted. *)
Inductive Reason :=
  | PoolDisabledReason
  | InvalidPoolConfig
  | RequestOverPoolMem
  | InitialReservationTooLarge
  | QueueFull
  | NoExecutors
  | QueueTimedOut.

(** The status [SubmitForAdmission] returns. *)
Inductive Status :=
  | Status_OK
  | Status_CANCELLED
  | Status_Error (msg : Reason).

(** *** PoolStats *)

Module PoolStats.

Record t := {
  agg_num_running_ : Z;
  agg_num_queued_ : Z;
  agg_mem_reserved_ : Z;
  local_mem_admitted_ : Z;
}.

(** The constructor zeroes every counter. *)
Definition init : t :=
  {| agg_num_running_ := 0; agg_num_queued_ := 0;
     agg_mem_reserved_ := 0; local_mem_admitted_ := 0 |}.

Definition agg_num_running (this : t) : Z := agg_num_running_ this.
Definition agg_num_queued (this : t) : Z := agg_num_queued_ this.

Definition EffectiveMemReserved (this : t) : Z :=
  std_max (agg_mem_reserved_ this) (local_mem_admitted_ this).

(** Modelled from the spec: [Admit], [Queue] and [Dequeue] are defined in
    admission-controller.cc, which is not among the sources. Admitting
    adds one running query and charges the cluster-wide memory of the
    request to the locally admitted memory; queueing and dequeueing move
    the count of queued requests by one. *)
Definition Admit (schedule : QuerySchedule.t) (this : t) : t :=
  {| agg_num_running_ := agg_num_running_ this + 1;
     agg_num_queued_ := agg_num_queued_ this;
     agg_mem_reserved_ := agg_mem_reserved_ this;
     local_mem_admitted_ :=
       local_mem_admitted_ this + QuerySchedule.GetClusterMemoryToAdmit schedule |}.

Definition Queue (schedule : QuerySchedule.t) (this : t) : t :=
  {| agg_num_running_ := agg_num_running_ this;
     agg_num_queued_ := agg_num_queued_ this + 1;
     agg_mem_reserved_ := agg_mem_reserved_ this;
     local_mem_admitted_ := local_mem_admitted_ this |}.

Definition Dequeue (schedule : QuerySchedule.t) (timed_out : bool) (this : t) : t :=
  {| agg_num_running_ := agg_num_running_ this;
     agg_num_queued_ := agg_num_queued_ this - 1;
     agg_mem_reserved_ := agg_mem_reserved_ this;
     local_mem_admitted_ := local_mem_admitted_ this |}.

(** Modelled from the spec: [Release] is defined in admission-controller.cc;
    it is the inverse of [Admit] on the counters (the histogram of peak
    memory and the average wait are not part of this model). *)
Definition Release (schedule : QuerySchedule.t) (peak_mem_consumption : Z) (this : t) : t :=
  {| agg_num_running_ := agg_num_running_ this - 1;
     agg_num_queued_ := agg_num_queued_ this;
     agg_mem_reserved_ := agg_mem_reserved_ this;
     local_mem_admitted_ :=
       local_mem_admitted_ this - QuerySchedule.GetClusterMemoryToAdmit schedule |}.

End PoolStats.

(** *** The state behind [admission_ctrl_lock_] *)

(** A parked request. [admit_outcome] names the promise the caller, the
    dequeue thread and a canceller share. *)
Record QueueNode := {
  schedule : QuerySchedule.t;
  admit_outcome : nat;
}.

Definition node_id (node : QueueNode) : nat := QuerySchedule.query_id (schedule node).

(** The members the lock protects, and the store of the promises
    ([Promise<AdmissionOutcome, MULTIPLE_PRODUCER>]): a promise that is not
    in the store has not been set. *)
Record State := {
  host_mem_reserved_ : gmap string Z;
  host_mem_admitted_ : gmap string Z;
  pool_stats_ : gmap string PoolStats.t;
  request_queue_map_ : gmap string (list QueueNode);
  pool_config_map_ : gmap string TPoolConfig;
  promises : gmap nat AdmissionOutcome;
}.

Definition init : State :=
  {| host_mem_reserved_ := ∅; host_mem_admitted_ := ∅; pool_stats_ := ∅;
     request_queue_map_ := ∅; pool_config_map_ := ∅; promises := ∅ |}.

Definition set_host_mem_admitted (m : gmap string Z) (st : State) : State :=
  {| host_mem_reserved_ := host_mem_reserved_ st;
     host_mem_admitted_ := m;
     pool_stats_ := pool_stats_ st;
     request_queue_map_ := request_queue_map_ st;
     pool_config_map_ := pool_config_map_ st;
     promises := promises st |}.

Definition set_pool_stats (m : gmap string PoolStats.t) (st : State) : State :=
  {| host_mem_reserved_ := host_mem_reserved_ st;
     host_mem_admitted_ := host_mem_admitted_ st;
     pool_stats_ := m;
     request_queue_map_ := request_queue_map_ st;
     pool_config_map_ := pool_config_map_ st;
     promises := promises st |}.

Definition set_request_queue_map (m : gmap string (list QueueNode)) (st : State) : State :=
  {| host_mem_reserved_ := host_mem_reserved_ st;
     host_mem_admitted_ := host_mem_admitted_ st;
     pool_stats_ := pool_stats_ st;
     request_queue_map_ := m;
     pool_config_map_ := pool_config_map_ st;
     promises := promises st |}.

Definition set_pool_config_map (m : gmap string TPoolConfig) (st : State) : State :=
  {| host_mem_reserved_ := host_mem_reserved_ st;
     host_mem_admitted_ := host_mem_admitted_ st;
     pool_stats_ := pool_stats_ st;
     request_queue_map_ := request_queue_map_ st;
     pool_config_map_ := m;
     promises := promises st |}.

Definition set_promises (m : gmap nat AdmissionOutcome) (st : State) : State :=
  {| host_mem_reserved_ := host_mem_reserved_ st;
     host_mem_admitted_ := host_mem_admitted_ st;
     pool_stats_ := pool_stats_ st;
     request_queue_map_ := request_queue_map_ st;
     pool_config_map_ := pool_config_map_ st;
     promises := m |}.

(** Modelled from the spec: [GetPoolStats] is defined in
    admission-controller.cc; it gets or creates the stats of a pool. *)
Definition GetPoolStats (pool_name : string) (st : State) : PoolStats.t :=
  default PoolStats.init (pool_stats_ st !! pool_name).

Definition update_pool_stats (pool_name : string) (f : PoolStats.t -> PoolStats.t)
    (st : State) : State :=
  set_pool_stats (<[pool_name := f (GetPoolStats pool_name st)]> (pool_stats_ st)) st.

(** The request queue of a pool, head first; a pool that was never used
    has an empty queue. *)
Definition queue_of (pool_name : string) (st : State) : list QueueNode :=
  default [] (request_queue_map_ st !! pool_name).

Definition set_queue (pool_name : string) (q : list QueueNode) (st : State) : State :=
  set_request_queue_map (<[pool_name := q]> (request_queue_map_ st)) st.

(** Modelled from the spec: [RequestQueue::Remove] (util/internal-queue.h)
    takes a node out of the queue wherever it is; the others keep their
    order. Nodes are told apart by their query id. *)
Definition remove_node (id : nat) (q : list QueueNode) : list QueueNode :=
  filter (fun n => node_id n ≠ id) q.

(** Modelled from the spec: [Promise::Set] in multiple-producer mode
    (util/promise.h). The first writer wins; the value held afterwards is
    returned. *)
Definition Promise_Set (p : nat) (v : AdmissionOutcome) (st : State)
    : State * AdmissionOutcome :=
  match promises st !! p with
  | Some held => (st, held)
  | None => (set_promises (<[p := v]> (promises st)) st, v)
  end.

(** Modelled from the spec: [GetClusterSize] is defined in
    admission-controller.cc; it is the number of live executors, at least 1. *)
Definition GetClusterSize (executors : gset string) : Z :=
  Z.max 1 (Z.of_nat (size executors)).

(** Modelled from the spec: [UpdateHostMemAdmitted] is defined in
    admission-controller.cc; it adds [per_node_mem] to [host_mem_admitted_]
    for each host of the schedule. *)
Definition UpdateHostMemAdmitted (schedule : QuerySchedule.t) (per_node_mem : Z)
    (st : State) : State :=
  set_host_mem_admitted
    (merge (fun admitted params =>
              match params with
              | Some _ => Some (default 0 admitted + per_node_mem)
              | None => admitted
              end)
       (host_mem_admitted_ st) (QuerySchedule.per_backend_exec_params schedule))
    st.

(** Modelled from the spec: [PoolDisabled] is defined in
    admission-controller.cc; a pool is disabled iff its [max_requests] is 0. *)
Definition PoolDisabled (pool_cfg : TPoolConfig) : bool :=
  max_requests pool_cfg =? 0.

(** Modelled from the spec: [CanAccommodateMaxInitialReservation] is defined
    in admission-controller.cc. The check is on the per host mem limit the
    query runs under, the final limit after clamping: it fails when that
    limit is below the largest initial reservation. A schedule without a
    limit (-1) has nothing the reservation could exceed; each of the four
    cases the header lists for a failure has a limit in force. *)
Definition CanAccommodateMaxInitialReservation (schedule : QuerySchedule.t)
    (pool_cfg : TPoolConfig) : bool :=
  let per_backend_mem_limit := QuerySchedule.per_backend_mem_limit schedule in
  if per_backend_mem_limit =? QuerySchedule.no_mem_limit then true
  else negb (per_backend_mem_limit <? QuerySchedule.largest_min_reservation schedule).

(** Modelled from the spec: [AdmitQuery] is defined in
    admission-controller.cc. It updates the pool's stats and the memory
    admitted on each host of the request. *)
Definition AdmitQuery (schedule : QuerySchedule.t) (was_queued : bool) (st : State)
    : State :=
  let pool_name := QuerySchedule.request_pool schedule in
  let st := update_pool_stats pool_name (PoolStats.Admit schedule) st in
  UpdateHostMemAdmitted schedule (QuerySchedule.per_backend_mem_to_admit schedule) st.

(** Modelled from the spec: [ReleaseQuery] is defined in
    admission-controller.cc. It releases the query in the pool's stats and
    takes its memory off each of its hosts. *)
Definition ReleaseQuery (schedule : QuerySchedule.t) (peak_mem_consumption : Z)
    (st : State) : State :=
  let pool_name := QuerySchedule.request_pool schedule in
  let st :=
    update_pool_stats pool_name (PoolStats.Release schedule peak_mem_consumption) st in
  UpdateHostMemAdmitted schedule (- QuerySchedule.per_backend_mem_to_admit schedule) st.

(** *** Admission, queueing and dequeueing *)

(** What becomes of a request while the lock is held for the first time:
    the call returns, or the request is parked in the queue. *)
Inductive Submission :=
  | Returned (status : Status)
  | Parked (node : QueueNode).

(** What an observer of one coordinator sees happen to requests. *)
Inductive Event :=
  | Rejected (pool : string) (id : nat)
  | AdmittedImmediately (pool : string) (id : nat)
  | Queued (pool : string) (id : nat)
  | AdmittedFromQueue (pool : string) (id : nat)
  | LeftQueue (pool : string) (id : nat).

#[global] Instance Event_eq_dec : EqDecision Event.
Proof. solve_decision. Defined.

Section Admission.

(** Declared outside the sources at hand: the helpers of
    [UpdateMemoryRequirements], the pool limits derived from a config and the
    cluster size, the validity check of a config, the heuristic of the
    dequeue thread, and the decision whether a request fits now. The
    development holds for any of them. *)
Variable GetMinMemLimitFromReservation : Z -> Z.
Variable physical_mem : Z.
Variable IsPoolConfigValidForCluster : TPoolConfig -> Z -> bool.
Variable GetMaxMemForPool : TPoolConfig -> Z -> Z.
Variable GetMaxQueuedForPool : TPoolConfig -> Z -> Z.
Variable GetMaxToDequeue : list QueueNode -> PoolStats.t -> TPoolConfig -> Z -> Z.
Variable CanAdmitRequest : State -> QuerySchedule.t -> TPoolConfig -> Z -> bool -> bool.

(** Modelled from the spec: [RejectImmediately] is defined in
    admission-controller.cc. A request is rejected iff the pool is disabled,
    its config is invalid, the request alone needs more memory than the pool
    may hold, the memory limit cannot accommodate the largest initial
    reservation, the queue is full, or there is no executor. The order only
    selects the reason. *)
Definition RejectImmediately (st : State) (schedule : QuerySchedule.t)
    (pool_cfg : TPoolConfig) (cluster_size : Z) (executors : gset string)
    : option Reason :=
  let stats := GetPoolStats (QuerySchedule.request_pool schedule) st in
  if PoolDisabled pool_cfg then Some PoolDisabledReason
  else if negb (IsPoolConfigValidForCluster pool_cfg cluster_size)
  then Some InvalidPoolConfig
  else if GetMaxMemForPool pool_cfg cluster_size
            <? QuerySchedule.GetClusterMemoryToAdmit schedule
  then Some RequestOverPoolMem
  else if negb (CanAccommodateMaxInitialReservation schedule pool_cfg)
  then Some InitialReservationTooLarge
  else if GetMaxQueuedForPool pool_cfg cluster_size <=? PoolStats.agg_num_queued stats
  then Some QueueFull
  else if bool_decide (executors = ∅) then Some NoExecutors
  else None.

(** Modelled from the spec: the part of [SubmitForAdmission] that runs before
    the caller waits (steps 1 to 4). The memory requirements are derived
    first; a rejected request is marked and returned; a request that fits is
    admitted; any other is parked at the tail of its pool's queue. The
    promise keeps the value of its first writer, and the submitter reads
    what it holds after its own write: when that is not what it wrote, it
    lost to the client's cancellation, so the call returns the cancelled
    status (the third pair of the header) and the query is not charged,
    which is where the loser of the spec, who releases at once what it
    charged, ends up. *)
Definition SubmitBegin (st : State) (schedule : QuerySchedule.t) (admit_outcome : nat)
    (pool_cfg : TPoolConfig) (executors : gset string)
    : State * QuerySchedule.t * Submission :=
  let cluster_size := GetClusterSize executors in
  let pool_name := QuerySchedule.request_pool schedule in
  let st := set_pool_config_map (<[pool_name := pool_cfg]> (pool_config_map_ st)) st in
  let schedule :=
    QuerySchedule.UpdateMemoryRequirements
      GetMinMemLimitFromReservation physical_mem pool_cfg schedule in
  match RejectImmediately st schedule pool_cfg cluster_size executors with
  | Some reason =>
      let '(st, outcome) := Promise_Set admit_outcome REJECTED_OR_TIMED_OUT st in
      match outcome with
      | REJECTED_OR_TIMED_OUT => (st, schedule, Returned (Status_Error reason))
      | _ => (st, schedule, Returned Status_CANCELLED)
      end
  | None =>
      if CanAdmitRequest st schedule pool_cfg cluster_size false then
        let '(st, outcome) := Promise_Set admit_outcome ADMITTED st in
        match outcome with
        | ADMITTED => (AdmitQuery schedule false st, schedule, Returned Status_OK)
        | _ => (st, schedule, Returned Status_CANCELLED)
        end
      else
        let node := {| schedule := schedule; admit_outcome := admit_outcome |} in
        let st := set_queue pool_name (queue_of pool_name st ++ [node]) st in
        let st := update_pool_stats pool_name (PoolStats.Queue schedule) st in
        (st, schedule, Parked node)
  end.

(** Modelled from the spec: the part of [SubmitForAdmission] that runs when
    the wait is over (step 5). The caller writes the timeout into the
    promise; when the dequeue thread or a canceller wrote first, their value
    stands. A request that was not admitted leaves the queue. *)
Definition SubmitEnd (st : State) (node : QueueNode) : State * Status :=
  let pool_name := QuerySchedule.request_pool (schedule node) in
  let '(st, outcome) := Promise_Set (admit_outcome node) REJECTED_OR_TIMED_OUT st in
  let leave timed_out st :=
    if bool_decide (node_id node ∈ node_id <$> queue_of pool_name st) then
      update_pool_stats pool_name (PoolStats.Dequeue (schedule node) timed_out)
        (set_queue pool_name (remove_node (node_id node) (queue_of pool_name st)) st)
    else st in
  match outcome with
  | ADMITTED => (st, Status_OK)
  | CANCELLED => (leave false st, Status_CANCELLED)
  | REJECTED_OR_TIMED_OUT => (leave true st, Status_Error QueueTimedOut)
  end.

(** Modelled from the spec: [SubmitForAdmission] as a whole. The caller
    blocks between the two parts; [others] is what the other threads do to
    the state in the meantime. *)
Definition SubmitForAdmission (st : State) (schedule : QuerySchedule.t)
    (admit_outcome : nat) (pool_cfg : TPoolConfig) (executors : gset string)
    (others : State -> State) : State * QuerySchedule.t * Status :=
  match SubmitBegin st schedule admit_outcome pool_cfg executors with
  | (st, schedule, Returned status) => (st, schedule, status)
  | (st, schedule, Parked node) =>
      let '(st, status) := SubmitEnd (others st) node in
      (st, schedule, status)
  end.

(** Modelled from the spec: one attempt of the dequeue thread on a pool
    (section 4.4, step 3). Only the head of the queue is tried. When it can
    be admitted it leaves the queue, and it is admitted unless it was
    cancelled first; when it cannot, nothing happens and the pool is left
    alone. *)
Definition DequeueAttempt (st : State) (pool_name : string) (cluster_size : Z)
    : option (State * Event) :=
  match queue_of pool_name st, pool_config_map_ st !! pool_name with
  | node :: rest, Some pool_cfg =>
      if CanAdmitRequest st (schedule node) pool_cfg cluster_size true then
        let '(st, outcome) := Promise_Set (admit_outcome node) ADMITTED st in
        let st := set_queue pool_name rest st in
        let st := update_pool_stats pool_name (PoolStats.Dequeue (schedule node) false) st in
        match outcome with
        | ADMITTED =>
            Some (AdmitQuery (schedule node) true st, AdmittedFromQueue pool_name (node_id node))
        | _ => Some (st, LeftQueue pool_name (node_id node))
        end
      else None
  | _, _ => None
  end.

(** Modelled from the spec: the loop of the dequeue thread on one pool
    (section 4.4, step 2). It tries at most [max_to_dequeue] heads and stops
    at the first that cannot be admitted. *)
Fixpoint DequeueFromPool (max_to_dequeue : nat) (st : State) (pool_name : string)
    (cluster_size : Z) : State * list Event :=
  match max_to_dequeue with
  | O => (st, [])
  | S n =>
      match DequeueAttempt st pool_name cluster_size with
      | Some (st', ev) =>
          let '(st'', evs) := DequeueFromPool n st' pool_name cluster_size in
          (st'', ev :: evs)
      | None => (st, [])
      end
  end.

(** Modelled from the spec: the number of attempts is what
    [GetMaxToDequeue] allows. *)
Definition DequeuePool (st : State) (pool_name : string) (cluster_size : Z)
    : State * list Event :=
  match pool_config_map_ st !! pool_name with
  | Some pool_cfg =>
      let max_to_dequeue :=
        GetMaxToDequeue (queue_of pool_name st) (GetPoolStats pool_name st)
          pool_cfg cluster_size in
      DequeueFromPool (Z.to_nat max_to_dequeue) st pool_name cluster_size
  | None => (st, [])
  end.

(** *** Runs of one coordinator *)

(** The event a submission shows. A call that returns at once without
    admitting shows as [Rejected], whether the request was rejected or
    found cancelled. *)
Definition submit_event (pool : string) (id : nat) (r : Submission) : Event :=
  match r with
  | Returned Status_OK => AdmittedImmediately pool id
  | Returned _ => Rejected pool id
  | Parked _ => Queued pool id
  end.

(** The event the end of a wait shows: a request that was not admitted and
    is still parked leaves the queue. *)
Definition wake_event (st : State) (node : QueueNode) (status : Status) : option Event :=
  let pool_name := QuerySchedule.request_pool (schedule node) in
  match status with
  | Status_OK => None
  | _ =>
      if bool_decide (node_id node ∈ node_id <$> queue_of pool_name st)
      then Some (LeftQueue pool_name (node_id node))
      else None
  end.

(** A history lists the events of a run, the most recent first. *)
Definition record (ev : option Event) (history : list Event) : list Event :=
  match ev with
  | Some e => e :: history
  | None => history
  end.

(** One step under the lock (a writer of a promise needs no lock). Query
    ids are unique: a request is submitted under an id no parked request
    ever had. [ReleaseQuery] and the statestore callback change the
    accounting and leave the queues, the stored configs and the promises
    alone. *)
Inductive step (history : list Event) (st : State) : option Event -> State -> Prop :=
  | step_submit schedule admit_outcome pool_cfg executors st' schedule' r :
      (forall pool, Queued pool (QuerySchedule.query_id schedule) ∉ history) ->
      SubmitBegin st schedule admit_outcome pool_cfg executors = (st', schedule', r) ->
      step history st
        (Some (submit_event (QuerySchedule.request_pool schedule)
                 (QuerySchedule.query_id schedule) r)) st'
  | step_dequeue pool_name cluster_size st' ev :
      DequeueAttempt st pool_name cluster_size = Some (st', ev) ->
      step history st (Some ev) st'
  | step_wake node st' status :
      SubmitEnd st node = (st', status) ->
      step history st (wake_event st node status) st'
  | step_cancel p :
      step history st None (fst (Promise_Set p CANCELLED st))
  | step_accounting st' :
      request_queue_map_ st' = request_queue_map_ st ->
      pool_config_map_ st' = pool_config_map_ st ->
      promises st' = promises st ->
      step history st None st'.

(** The states a coordinator reaches from its start, with their history. *)
Inductive run : State -> list Event -> Prop :=
  | run_init : run init []
  | run_step st history ev st' :
      run st history -> step history st ev st' -> run st' (record ev history).

(** The effect of an event on the ids parked in a pool's queue. *)
Definition apply_event (pool_name : string) (ev : Event) (q : list nat) : list nat :=
  match ev with
  | Queued p id => if decide (p = pool_name) then q ++ [id] else q
  | AdmittedFromQueue p id | LeftQueue p id =>
      if decide (p = pool_name) then filter (fun x => x ≠ id) q else q
  | _ => q
  end.

(** The ids a history leaves parked in a pool, head first. *)
Definition pending (pool_name : string) (history : list Event) : list nat :=
  foldr (apply_event pool_name) [] history.

(** A request has left the queue of its pool: it was admitted from it, or it
    was cancelled or timed out. *)
Definition departed (pool_name : string) (id : nat) (events : list Event) : Prop :=
  AdmittedFromQueue pool_name id ∈ events ∨ LeftQueue pool_name id ∈ events.

End Admission.

End AdmissionController.

(** ** Notions the statements use *)

Module Derived.

Import QuerySchedule.

(** The pool bounds as an interval operation: a bound counts only when it is
    set (greater than zero); the lower bound is applied first. *)
Definition clamp_to_pool_bounds (lo hi x : Z) : Z :=
  let x := if 0 <? lo then Z.max x lo else x in
  if 0 <? hi then Z.min x hi else x.

(** A schedule whose [mem_limit] query option is unset, all else equal. *)
Definition without_mem_limit (this : t) : t :=
  set_query_options
    {| isset_mem_limit := false; mem_limit := mem_limit (query_options this) |} this.

(** [a] is parked, and [b] is not parked ahead of it. *)
Definition ahead (a b : nat) (q : list nat) : Prop :=
  exists l l', q = l ++ a :: l' /\ b ∉ l.

End Derived.

(** ** Concrete requests, pools and helpers *)

Module Examples.

Import QuerySchedule AdmissionController.

(** A stand-in for the reservation helper: the reservation plus 75 MB of
    headroom. *)
Definition example_min_mem_limit (reservation : Z) : Z :=
  Z.max 0 reservation + 75 * 1024 * 1024.

(** 64 GB of physical memory. *)
Definition example_physical_mem : Z := 64 * 1024 * 1024 * 1024.

(** A pool that runs one query at a time, queues ten and holds 500 GB,
    with the given bounds on the query memory. *)
Definition example_pool (lo hi : Z) (clamp : bool) : TPoolConfig :=
  {| max_requests := 1; max_queued := 10;
     max_mem_resources := 500 * 1024 * 1024 * 1024;
     queue_timeout_ms := 100; min_query_mem_limit := lo;
     max_query_mem_limit := hi; clamp_mem_limit_query_option := clamp |}.

(** A request on two backends with a planner estimate of 2 GB, a largest
    initial reservation of 1 GB and the given [mem_limit] option. *)
Definition example_schedule (id : nat) (isset : bool) (limit : Z) : t :=
  {| query_id := id;
     request_pool := "default-pool";
     request := {| per_host_mem_estimate := 2 * 1024 * 1024 * 1024 |};
     query_options := {| isset_mem_limit := isset; mem_limit := limit |};
     largest_min_reservation := 1024 * 1024 * 1024;
     per_backend_exec_params :=
       {[ "host-1:22000" := {| num_instances := 1 |};
          "host-2:22000" := {| num_instances := 1 |} ]};
     per_backend_mem_to_admit := 0;
     per_backend_mem_limit := 0 |}.

(** The request of the class comment of admission-controller.h: a MEM_LIMIT
    of 50 GB on ten backends of 100 GB each, in a pool whose largest query
    memory is 40 GB and which clamps the query option. *)
Definition header_pool : TPoolConfig :=
  {| max_requests := -1; max_queued := 10;
     max_mem_resources := 500 * 1024 * 1024 * 1024;
     queue_timeout_ms := 60000; min_query_mem_limit := 0;
     max_query_mem_limit := 40 * 1024 * 1024 * 1024;
     clamp_mem_limit_query_option := true |}.

Definition header_schedule : QuerySchedule.t :=
  {| query_id := 0;
     request_pool := "q1";
     request := {| per_host_mem_estimate := 1024 * 1024 * 1024 |};
     query_options :=
       {| isset_mem_limit := true; mem_limit := 50 * 1024 * 1024 * 1024 |};
     largest_min_reservation := 1024 * 1024;
     per_backend_exec_params :=
       list_to_map
         ((fun host => (host, {| num_instances := 1 |})) <$>
            ["h0"; "h1"; "h2"; "h3"; "h4"; "h5"; "h6"; "h7"; "h8"; "h9"]);
     per_backend_mem_to_admit := 0;
     per_backend_mem_limit := 0 |}.

(** Stand-ins for the pool limits and the validity check: the limits are
    the configured ones, and a config is valid unless its set bounds are
    crossed. *)
Definition example_config_valid (pool_cfg : TPoolConfig) (cluster_size : Z) : bool :=
  negb ((0 <? min_query_mem_limit pool_cfg) && (0 <? max_query_mem_limit pool_cfg)
        && (max_query_mem_limit pool_cfg <? min_query_mem_limit pool_cfg)).

Definition example_max_mem (pool_cfg : TPoolConfig) (cluster_size : Z) : Z :=
  max_mem_resources pool_cfg.

Definition example_max_queued (pool_cfg : TPoolConfig) (cluster_size : Z) : Z :=
  max_queued pool_cfg.

(** A request fits while the pool runs fewer queries than it may. *)
Definition example_can_admit (st : State) (schedule : QuerySchedule.t)
    (pool_cfg : TPoolConfig) (cluster_size : Z) (admit_from_queue : bool) : bool :=
  PoolStats.agg_num_running (GetPoolStats (request_pool schedule) st)
    <? max_requests pool_cfg.

Definition example_executors : gset string := {[ "host-1:22000"; "host-2:22000" ]}.

(** Submitting request [id], without a user limit, to the pool without
    bounds; its promise is number [id]. *)
Definition example_submit (st : State) (id : nat) : State * QuerySchedule.t * Submission :=
  SubmitBegin example_min_mem_limit example_physical_mem example_config_valid
    example_max_mem example_max_queued example_can_admit
    st (example_schedule id false 0) id (example_pool 0 0 false) example_executors.

Definition example_updated (id : nat) : QuerySchedule.t :=
  UpdateMemoryRequirements example_min_mem_limit example_physical_mem
    (example_pool 0 0 false) (example_schedule id false 0).

Definition example_dequeue (st : State) : option (State * Event) :=
  DequeueAttempt example_can_admit st "default-pool" 2.

(** A run: request 0 is admitted at once; requests 1 and 2 are parked behind
    it; 0 completes and 1 is admitted from the queue; 1 completes and 2 is
    admitted from the queue. *)
Definition example_st1 : State := (example_submit init 0).1.1.
Definition example_st2 : State := (example_submit example_st1 1).1.1.
Definition example_st3 : State := (example_submit example_st2 2).1.1.
Definition example_st4 : State := ReleaseQuery (example_updated 0) 0 example_st3.
Definition example_st5 : State := from_option fst example_st4 (example_dequeue example_st4).
Definition example_st6 : State := ReleaseQuery (example_updated 1) 0 example_st5.
Definition example_st7 : State := from_option fst example_st6 (example_dequeue example_st6).

(** Scenario 1 of the spec: a pool of four queries and 500 GB without
    bounds, and a request of 50 GB on ten hosts with an initial reservation
    of 1 GB. *)
Definition scenario_pool : TPoolConfig :=
  {| max_requests := 4; max_queued := 10;
     max_mem_resources := 500 * 1024 * 1024 * 1024;
     queue_timeout_ms := 60000; min_query_mem_limit := 0;
     max_query_mem_limit := 0; clamp_mem_limit_query_option := true |}.

Definition scenario_schedule (estimate reservation : Z) : QuerySchedule.t :=
  {| query_id := 1;
     request_pool := "q1";
     request := {| per_host_mem_estimate := estimate |};
     query_options := {| isset_mem_limit := false; mem_limit := 0 |};
     largest_min_reservation := reservation;
     per_backend_exec_params :=
       list_to_map
         ((fun host => (host, {| num_instances := 1 |})) <$>
            ["h0"; "h1"; "h2"; "h3"; "h4"; "h5"; "h6"; "h7"; "h8"; "h9"]);
     per_backend_mem_to_admit := 0;
     per_backend_mem_limit := 0 |}.

Definition scenario_executors : gset string :=
  list_to_set ["h0"; "h1"; "h2"; "h3"; "h4"; "h5"; "h6"; "h7"; "h8"; "h9"].

Definition scenario_submit (pool_cfg : TPoolConfig) (schedule : QuerySchedule.t)
    : State * QuerySchedule.t * Status :=
  SubmitForAdmission example_min_mem_limit example_physical_mem example_config_valid
    example_max_mem example_max_queued example_can_admit
    init schedule 1 pool_cfg scenario_executors id.

(** The whole call, for request [id] in the given pool. *)
Definition example_submit_for_admission (st : State) (pool_cfg : TPoolConfig) (id : nat)
    (others : State -> State) : State * QuerySchedule.t * Status :=
  SubmitForAdmission example_min_mem_limit example_physical_mem example_config_valid
    example_max_mem example_max_queued example_can_admit
    st (example_schedule id false 0) id pool_cfg example_executors others.

(** Request 1 arrives while request 0 runs, and nothing happens while it
    waits. *)
Definition example_timed_out : State * QuerySchedule.t * Status :=
  example_submit_for_admission example_st1 (example_pool 0 0 false) 1 id.

(** Request 0 arrives at an idle pool whose largest query memory is 4 GB. *)
Definition example_bounded_pool : TPoolConfig :=
  example_pool 0 (4 * 1024 * 1024 * 1024) false.

Definition example_bounded_pool_8 : TPoolConfig :=
  example_pool 0 (8 * 1024 * 1024 * 1024) false.

Definition example_admitted : State * QuerySchedule.t * Status :=
  example_submit_for_admission init example_bounded_pool 0 id.

(** The client cancels request 0 before it is submitted, and the pool is
    disabled. *)
Definition example_cancelled_first : State := (Promise_Set 0 CANCELLED init).1.

Definition example_disabled_pool : TPoolConfig :=
  {| max_requests := 0; max_queued := 10;
     max_mem_resources := 500 * 1024 * 1024 * 1024;
     queue_timeout_ms := 100; min_query_mem_limit := 0;
     max_query_mem_limit := 0; clamp_mem_limit_query_option := false |}.

Definition example_cancelled_rejected : State * QuerySchedule.t * Status :=
  example_submit_for_admission example_cancelled_first example_disabled_pool 0 id.

End Examples.

(** ** query-schedule.cc: the plan side of a schedule *)

(** 32-bit integers ([int], [TPlanNodeId], [FragmentIdx]). *)
Module Int32.

Definition modulus : Z := 2 ^ 32.
Definition max_value : Z := 2 ^ 31 - 1.

(** Conversion of an unsigned value to [int] (two's complement). *)
Definition to_signed (u : Z) : Z :=
  let r := u mod modulus in
  if r <? 2 ^ 31 then r else r - modulus.

(** [total += n] for an [int] total and a [size_t] n. *)
Definition add_size (total : Z) (n : nat) : Z := to_signed (total + Z.of_nat n).

End Int32.

Module FragmentPlan.

(** The Thrift structures of a plan, as far as [QuerySchedule] reads them.
    [stream_sink] is the destination node of the output sink when
    [output_sink.__isset.stream_sink] holds. *)
Record TUniqueId := {
  hi : Z;
  lo : Z;
}.

Inductive TStmtType :=
  | QUERY
  | OTHER_STMT.

Record TPlanNode := {
  node_id : Z;
}.

Record TPlanFragment := {
  idx : Z;
  nodes : list TPlanNode;
  stream_sink : option Z;
}.

Record TPlanExecInfo := {
  fragments : list TPlanFragment;
}.

Record TQueryExecRequest := {
  plan_exec_info : list TPlanExecInfo;
  stmt_type : TStmtType;
}.

Inductive TScanRangeParams :=
  | ScanRange (range : nat).

(** The execution parameters of an instance and of a fragment
    ([per_node_scan_ranges] maps a node id to its scan ranges,
    [scan_range_assignment] a host to such a map). *)
Record FInstanceExecParams := {
  instance_id : TUniqueId;
  host : string;
  per_node_scan_ranges : gmap Z (list TScanRangeParams);
}.

Record FragmentExecParams := {
  fragment : TPlanFragment;
  is_coord_fragment : bool;
  input_fragments : list Z;
  instance_exec_params : list FInstanceExecParams;
  scan_range_assignment : gmap string (gmap Z (list TScanRangeParams));
}.

(** [FragmentExecParams(fragment)]: nothing is assigned yet. *)
Definition new_FragmentExecParams (f : TPlanFragment) : FragmentExecParams :=
  {| fragment := f; is_coord_fragment := false; input_fragments := [];
     instance_exec_params := []; scan_range_assignment := ∅ |}.

Definition set_is_coord_fragment (b : bool) (p : FragmentExecParams) : FragmentExecParams :=
  {| fragment := fragment p; is_coord_fragment := b;
     input_fragments := input_fragments p;
     instance_exec_params := instance_exec_params p;
     scan_range_assignment := scan_range_assignment p |}.

Definition push_input_fragment (i : Z) (p : FragmentExecParams) : FragmentExecParams :=
  {| fragment := fragment p; is_coord_fragment := is_coord_fragment p;
     input_fragments := input_fragments p ++ [i];
     instance_exec_params := instance_exec_params p;
     scan_range_assignment := scan_range_assignment p |}.

(** The members of [QuerySchedule] that [Init] and its readers use. *)
Record t := {
  request_ : TQueryExecRequest;
  fragment_exec_params_ : list FragmentExecParams;
  plan_node_to_fragment_idx_ : list Z;
  plan_node_to_plan_node_idx_ : list Z;
  next_instance_id_ : TUniqueId;
}.

Definition set_fragment_exec_params (v : list FragmentExecParams) (this : t) : t :=
  {| request_ := request_ this; fragment_exec_params_ := v;
     plan_node_to_fragment_idx_ := plan_node_to_fragment_idx_ this;
     plan_node_to_plan_node_idx_ := plan_node_to_plan_node_idx_ this;
     next_instance_id_ := next_instance_id_ this |}.

Definition set_node_tables (fragment_idx plan_node_idx : list Z) (this : t) : t :=
  {| request_ := request_ this; fragment_exec_params_ := fragment_exec_params_ this;
     plan_node_to_fragment_idx_ := fragment_idx;
     plan_node_to_plan_node_idx_ := plan_node_idx;
     next_instance_id_ := next_instance_id_ this |}.

Definition set_next_instance_id (v : TUniqueId) (this : t) : t :=
  {| request_ := request_ this; fragment_exec_params_ := fragment_exec_params_ this;
     plan_node_to_fragment_idx_ := plan_node_to_fragment_idx_ this;
     plan_node_to_plan_node_idx_ := plan_node_to_plan_node_idx_ this;
     next_instance_id_ := v |}.

(** [v[i]] on a vector: indexing out of range is undefined, which is
    [None] here. *)
Definition vec_get {A} (v : list A) (i : Z) : option A :=
  if i <? 0 then None else v !! Z.to_nat i.

(** [v[i] = f(v[i])] on a vector. *)
Definition vec_update {A} (f : A -> A) (v : list A) (i : Z) : option (list A) :=
  x ← vec_get v i; Some (<[Z.to_nat i := f x]> v).

(** A loop over a list whose body may be undefined. *)
Fixpoint for_each {A S} (body : S -> A -> option S) (l : list A) (s : S) : option S :=
  match l with
  | [] => Some s
  | x :: l => s' ← body s x; for_each body l s'
  end.

(** The fragments of all plans, in the order the loops visit them. *)
Definition all_fragments (request : TQueryExecRequest) : list TPlanFragment :=
  plan_exec_info request ≫= fragments.

(** The nodes of all fragments, in the order the loops visit them. *)
Definition all_nodes (request : TQueryExecRequest) : list TPlanNode :=
  all_fragments request ≫= nodes.

(** [GetTPlanFragments]: the vector is cleared, then filled. *)
Definition GetTPlanFragments (this : t) (out : list TPlanFragment) : list TPlanFragment :=
  foldl (fun out plan_info => foldl (fun out f => out ++ [f]) out (fragments plan_info))
    [] (plan_exec_info (request_ this)).

(** [GetCoordFragment]: [None] is the null pointer (the [DCHECK] on the
    partition type is a debug assertion). *)
Definition GetCoordFragment (this : t) : option (option TPlanFragment) :=
  match stmt_type (request_ this) with
  | QUERY =>
      plan ← plan_exec_info (request_ this) !! 0%nat;
      f ← fragments plan !! 0%nat;
      Some (Some f)
  | _ => Some None
  end.

(** [GetNextInstanceId]: the id is handed out and the counter moves on;
    incrementing past the largest [int64_t] is undefined. *)
Definition GetNextInstanceId (this : t) : option (TUniqueId * t) :=
  let result := next_instance_id_ this in
  if lo (next_instance_id_ this) <? Int64.max_value then
    Some (result,
          set_next_instance_id
            {| hi := hi (next_instance_id_ this); lo := lo (next_instance_id_ this) + 1 |}
            this)
  else None.

(** [GetNumFragmentInstances]: an [int] total of [size_t] sizes. *)
Definition GetNumFragmentInstances (this : t) : Z :=
  foldl (fun total p => Int32.add_size total (length (instance_exec_params p)))
    0 (fragment_exec_params_ this).

Section Init.

(** [std::sort] with the comparison of fragment indexes, and
    [CreateInstanceId] of util/uid-util.h. *)
Variable sort_fragments : list TPlanFragment -> list TPlanFragment.
Variable CreateInstanceId : TUniqueId -> Z -> TUniqueId.

(** One write of the loop that fills the node tables. *)
Definition record_node (f : TPlanFragment) (tables : list Z * list Z)
    (entry : nat * TPlanNode) : option (list Z * list Z) :=
  let '(i, node) := entry in
  fragment_idx ← vec_update (fun _ => idx f) tables.1 (node_id node);
  plan_node_idx ← vec_update (fun _ => Z.of_nat i) tables.2 (node_id node);
  Some (fragment_idx, plan_node_idx).

(** One round of the loop that computes the input fragments. *)
Definition record_input (fragment_idx : list Z) (params : list FragmentExecParams)
    (f : TPlanFragment) : option (list FragmentExecParams) :=
  match stream_sink f with
  | None => Some params
  | Some dest_node_id =>
      dest_idx ← vec_get fragment_idx dest_node_id;
      vec_update (push_input_fragment (idx f)) params dest_idx
  end.

(** [Init]. [None] stands for undefined behaviour: an index out of range,
    or [max_node_id + 1] past the largest [int]. *)
Definition Init (this : t) : option t :=
  let request := request_ this in
  (* extract TPlanFragments and order by fragment idx *)
  let fragments_ :=
    sort_fragments
      (foldl (fun acc plan => foldl (fun acc f => acc ++ [f]) acc (fragments plan))
         [] (plan_exec_info request)) in
  let params := fragment_exec_params_ this ++ (new_FragmentExecParams <$> fragments_) in
  (* mark coordinator fragment *)
  plan0 ← plan_exec_info request !! 0%nat;
  root_fragment ← fragments plan0 !! 0%nat;
  '(params, next_instance_id) ←
    match stmt_type request with
    | QUERY =>
        params ← vec_update (set_is_coord_fragment true) params (idx root_fragment);
        Some (params, CreateInstanceId (next_instance_id_ this) 1)
    | _ => Some (params, next_instance_id_ this)
    end;
  (* find max node id *)
  let max_node_id :=
    foldl (fun m plan =>
             foldl (fun m f =>
                      foldl (fun m node => Int64.std_max (node_id node) m) m (nodes f))
               m (fragments plan))
      0 (plan_exec_info request) in
  (* populate plan_node_to_fragment_idx_ and plan_node_to_plan_node_idx_ *)
  if Int32.max_value <=? max_node_id then None else
  let size := Z.to_nat (max_node_id + 1) in
  let tables :=
    (resize size 0 (plan_node_to_fragment_idx_ this),
     resize size 0 (plan_node_to_plan_node_idx_ this)) in
  tables ←
    for_each (fun tables plan =>
                for_each (fun tables f =>
                            for_each (record_node f) (imap pair (nodes f)) tables)
                  (fragments plan) tables)
      (plan_exec_info request) tables;
  (* compute input fragments *)
  params ←
    for_each (fun params plan => for_each (record_input tables.1) (fragments plan) params)
      (plan_exec_info request) params;
  Some {| request_ := request;
          fragment_exec_params_ := params;
          plan_node_to_fragment_idx_ := tables.1;
          plan_node_to_plan_node_idx_ := tables.2;
          next_instance_id_ := next_instance_id |}.

End Init.

(** [Validate]: [true] when every [DCHECK] holds. *)
Definition count_instance (count_map : gmap string (gmap Z Z)) (ip : FInstanceExecParams)
    : gmap string (gmap Z Z) :=
  let node_map := default ∅ (count_map !! host ip) in
  let node_map :=
    map_fold (fun node_id ranges node_map =>
                <[node_id := Int32.add_size (default 0 (node_map !! node_id))
                               (length ranges)]> node_map)
      node_map (per_node_scan_ranges ip) in
  <[host ip := node_map]> count_map.

Definition count_map_of (params : list FragmentExecParams) : gmap string (gmap Z Z) :=
  foldl (fun count_map fp => foldl count_instance count_map (instance_exec_params fp))
    ∅ params.

Definition Validate (this : t) : bool :=
  let params := fragment_exec_params_ this in
  let fragments_ok :=
    forallb (fun f =>
               match vec_get params (idx f) with
               | Some fp => idx f =? idx (fragment fp)
               | None => false
               end)
      (all_fragments (request_ this)) in
  let num_fragments_ok :=
    Int32.to_signed (Z.of_nat (length (all_fragments (request_ this))))
      =? Z.of_nat (length params) in
  let count_map := count_map_of params in
  let assignments_ok :=
    forallb (fun fp =>
               forallb (fun '(host, assignment) =>
                          match count_map !! host with
                          | None => false
                          | Some node_map =>
                              forallb (fun '(node_id, ranges) =>
                                         match node_map !! node_id with
                                         | Some count => count =? Z.of_nat (length ranges)
                                         | None => false
                                         end)
                                (map_to_list assignment)
                          end)
                 (map_to_list (scan_range_assignment fp)))
      params in
  fragments_ok && num_fragments_ok && assignments_ok.

End FragmentPlan.

(** ** Notions the statements about a plan use *)

Module FragmentPlanNotions.

Import FragmentPlan.

(** The order [std::sort] is given: by fragment index. *)
Definition idx_le (a b : TPlanFragment) : Prop := idx a <= idx b.

#[global] Instance idx_le_dec a b : Decision (idx_le a b).
Proof. unfold idx_le. apply _. Defined.

(** A schedule as its constructor leaves it before [Init] runs. *)
Definition new_schedule (query_id : TUniqueId) (request : TQueryExecRequest) : t :=
  {| request_ := request; fragment_exec_params_ := [];
     plan_node_to_fragment_idx_ := []; plan_node_to_plan_node_idx_ := [];
     next_instance_id_ := query_id |}.

(** The largest node id of a request, and zero when it has no node. *)
Definition max_node_id (request : TQueryExecRequest) : Z :=
  foldl (fun m node => Z.max (node_id node) m) 0 (all_nodes request).

(** The fragment indexes are [0 .. n-1], each once. *)
Definition indexes_are_positions (request : TQueryExecRequest) : Prop :=
  idx <$> all_fragments request ≡ₚ seqZ 0 (Z.of_nat (length (all_fragments request))).

(** A request on which [Init] is defined: it has a root fragment, its
    fragment indexes are the positions, its node ids are [int]s that are not
    negative and leave room for one more, and every stream sink feeds a node
    of the request. *)
Definition well_formed (request : TQueryExecRequest) : Prop :=
  (exists root, plan_exec_info request !! 0%nat ≫= (fun plan => fragments plan !! 0%nat)
                = Some root)
  /\ indexes_are_positions request
  /\ Forall (fun node => 0 <= node_id node < Int32.max_value) (all_nodes request)
  /\ Forall (fun f => forall dest, stream_sink f = Some dest ->
                      dest ∈ node_id <$> all_nodes request)
       (all_fragments request).

(** The writes of the loop that fills the node tables, in its order: the
    fragment, the position of the node in it, and the node. *)
Definition node_writes (request : TQueryExecRequest)
    : list (TPlanFragment * (nat * TPlanNode)) :=
  all_fragments request ≫= (fun f => pair f <$> imap pair (nodes f)).

Definition record_write (tables : list Z * list Z)
    (w : TPlanFragment * (nat * TPlanNode)) : option (list Z * list Z) :=
  record_node w.1 tables w.2.

(** The entries of the fragment table before the coordinator is marked. *)
Definition sorted_params (sort_fragments : list TPlanFragment -> list TPlanFragment)
    (this : t) : list FragmentExecParams :=
  fragment_exec_params_ this
    ++ (new_FragmentExecParams <$> sort_fragments (all_fragments (request_ this))).

(** Fragment [f] sends its output to a node that the table gives to the
    fragment at position [j]. *)
Definition feeds (table : list Z) (j : nat) (f : TPlanFragment) : Prop :=
  exists dest, stream_sink f = Some dest /\ vec_get table dest = Some (Z.of_nat j).

#[global] Instance feeds_dec table j f : Decision (feeds table j f).
Proof.
  unfold feeds. destruct (stream_sink f) as [dest |].
  - destruct (decide (vec_get table dest = Some (Z.of_nat j))) as [Heq | Hne].
    + left. now exists dest.
    + right. intros (d & [= <-] & Hd). now apply Hne.
  - right. now intros (d & [=] & _).
Defined.

(** [n] ids in a row from [GetNextInstanceId]. *)
Fixpoint take_instance_ids (n : nat) (this : t) : option (list TUniqueId * t) :=
  match n with
  | O => Some ([], this)
  | S n =>
      '(id, this) ← GetNextInstanceId this;
      '(ids, this) ← take_instance_ids n this;
      Some (id :: ids, this)
  end.

(** The instances of all entries of the fragment table, in the order
    [Validate] visits them. *)
Definition all_instances (params : list FragmentExecParams) : list FInstanceExecParams :=
  params ≫= instance_exec_params.

(** The numbers of scan ranges that the instances on host [h] hold for the
    node [node], one for each instance that has an entry for it. *)
Definition scan_range_counts (ips : list FInstanceExecParams) (h : string) (node : Z)
    : list nat :=
  ips ≫= (fun ip =>
            if decide (host ip = h) then
              match per_node_scan_ranges ip !! node with
              | Some ranges => [length ranges]
              | None => []
              end
            else []).

(** The count that one instance leaves for a host and a node. *)
Definition count_step (h : string) (node : Z) (count : option Z)
    (ip : FInstanceExecParams) : option Z :=
  if decide (host ip = h) then
    match per_node_scan_ranges ip !! node with
    | Some ranges => Some (Int32.add_size (default 0 count) (length ranges))
    | None => count
    end
  else count.

(** A sort that meets what [std::sort] promises, and an id scheme. *)
Definition example_sort (l : list TPlanFragment) : list TPlanFragment :=
  merge_sort idx_le l.

Definition example_create_instance_id (query_id : TUniqueId) (instance_idx : Z)
    : TUniqueId :=
  {| hi := hi query_id; lo := lo query_id + instance_idx |}.

(** A query of three fragments: fragment 0 (node 0) is the root; fragment 1
    (nodes 1 and 2) sends to node 0; fragment 2 (node 3) sends to node 2. The
    request lists them out of order, in two plans. *)
Definition example_request : TQueryExecRequest :=
  {| plan_exec_info :=
       [ {| fragments :=
              [ {| idx := 0; nodes := [ {| node_id := 0 |} ]; stream_sink := None |};
                {| idx := 2; nodes := [ {| node_id := 3 |} ]; stream_sink := Some 2 |} ] |};
         {| fragments :=
              [ {| idx := 1; nodes := [ {| node_id := 1 |}; {| node_id := 2 |} ];
                   stream_sink := Some 0 |} ] |} ];
     stmt_type := QUERY |}.

Definition example_query_id : TUniqueId := {| hi := 7; lo := 16 |}.

Definition example_init : option t :=
  Init example_sort example_create_instance_id
    (new_schedule example_query_id example_request).

(** The schedule after [Init]. *)
Definition example_initialised : t :=
  default (new_schedule example_query_id example_request) example_init.

(** A schedule of one fragment with two instances on one host, which hold
    two and one scan ranges of node 0; the assignment gives the host all
    three. *)
Definition example_scan_fragment : TPlanFragment :=
  {| idx := 0; nodes := [ {| node_id := 0 |} ]; stream_sink := None |}.

Definition example_scan_params : FragmentExecParams :=
  {| fragment := example_scan_fragment;
     is_coord_fragment := true;
     input_fragments := [];
     instance_exec_params :=
       [ {| instance_id := {| hi := 7; lo := 16 |}; host := "host1:22000";
            per_node_scan_ranges := {[ 0 := [ScanRange 1; ScanRange 2] ]} |};
         {| instance_id := {| hi := 7; lo := 17 |}; host := "host1:22000";
            per_node_scan_ranges := {[ 0 := [ScanRange 3] ]} |} ];
     scan_range_assignment :=
       {[ "host1:22000"%string := {[ 0 := [ScanRange 1; ScanRange 2; ScanRange 3] ]} ]} |}.

Definition example_assigned : t :=
  {| request_ := {| plan_exec_info := [ {| fragments := [example_scan_fragment] |} ];
                    stmt_type := QUERY |};
     fragment_exec_params_ := [example_scan_params];
     plan_node_to_fragment_idx_ := [0];
     plan_node_to_plan_node_idx_ := [0];
     next_instance_id_ := {| hi := 7; lo := 18 |} |}.

End FragmentPlanNotions.

(** * Properties

    ** 64-bit arithmetic *)

Module Int64Facts.

Import Int64.

Lemma std_max_spec a b : std_max a b = Z.max a b.
Proof. unfold std_max. destruct (Z.ltb_spec a b); lia. Qed.

Lemma std_min_spec a b : std_min a b = Z.min a b.
Proof. unfold std_min. destruct (Z.ltb_spec b a); lia. Qed.

Lemma to_signed_in_range u : in_range (to_signed u).
Proof.
  unfold to_signed, in_range, min_value, max_value, modulus.
  pose proof (Z.mod_pos_bound u (2 ^ 64) ltac:(lia)) as Hb.
  destruct (Z.ltb_spec (u mod 2 ^ 64) (2 ^ 63)); lia.
Qed.

Lemma to_signed_of_in_range x : in_range x -> to_signed x = x.
Proof.
  unfold to_signed, in_range, min_value, max_value, modulus. intros Hx.
  destruct (Z_lt_le_dec x 0) as [Hneg | Hpos].
  - assert (Hm : x mod 2 ^ 64 = x + 2 ^ 64).
    { symmetry. apply (Z.mod_unique x (2 ^ 64) (-1)); lia. }
    rewrite Hm. destruct (Z.ltb_spec (x + 2 ^ 64) (2 ^ 63)); lia.
  - rewrite Z.mod_small by lia.
    destruct (Z.ltb_spec x (2 ^ 63)); lia.
Qed.

Lemma to_signed_mod u : to_signed (u mod modulus) = to_signed u.
Proof. unfold to_signed. cbn zeta. now rewrite Z.mod_mod by (unfold modulus; lia). Qed.

Lemma mul_size_wrap a n : mul_size a n = to_signed (a * Z.of_nat n).
Proof.
  unfold mul_size, to_unsigned. rewrite to_signed_mod.
  unfold to_signed. cbn zeta.
  now rewrite Z.mul_mod_idemp_l by (unfold modulus; lia).
Qed.

Lemma mul_size_exact a n : in_range (a * Z.of_nat n) -> mul_size a n = a * Z.of_nat n.
Proof. intros H. rewrite mul_size_wrap. now apply to_signed_of_in_range. Qed.

End Int64Facts.

(** ** The memory bookkeeping *)

Module MemoryRequirements.

Import Int64 Int64Facts QuerySchedule Derived Examples.

Lemma clamp_upper lo hi x : 0 < hi -> clamp_to_pool_bounds lo hi x <= hi.
Proof.
  intros Hhi. unfold clamp_to_pool_bounds.
  destruct (Z.ltb_spec 0 hi); [| lia]. destruct (0 <? lo); lia.
Qed.

Lemma clamp_lower lo hi x :
  0 < lo -> hi <= 0 \/ lo <= hi -> lo <= clamp_to_pool_bounds lo hi x.
Proof.
  intros Hlo Hhi. unfold clamp_to_pool_bounds.
  destruct (Z.ltb_spec 0 lo); [| lia]. destruct (Z.ltb_spec 0 hi); lia.
Qed.

Lemma clamp_unset lo hi x : lo <= 0 -> hi <= 0 -> clamp_to_pool_bounds lo hi x = x.
Proof.
  intros Hlo Hhi. unfold clamp_to_pool_bounds.
  destruct (Z.ltb_spec 0 lo); [lia |]. destruct (Z.ltb_spec 0 hi); lia.
Qed.

Lemma clamp_positive lo hi x : 0 < x -> 0 < clamp_to_pool_bounds lo hi x.
Proof.
  intros Hx. unfold clamp_to_pool_bounds.
  destruct (Z.ltb_spec 0 lo); destruct (Z.ltb_spec 0 hi); lia.
Qed.

Lemma clamp_nonneg lo hi x : 0 <= x -> 0 <= clamp_to_pool_bounds lo hi x.
Proof.
  intros Hx. unfold clamp_to_pool_bounds.
  destruct (Z.ltb_spec 0 lo); destruct (Z.ltb_spec 0 hi); lia.
Qed.

Section Derivation.

Variable GetMinMemLimitFromReservation : Z -> Z.
Variable physical_mem : Z.

Abbreviation InitMemToAdmit := (InitMemToAdmit GetMinMemLimitFromReservation).
Abbreviation CapMemToAdmit := (CapMemToAdmit physical_mem).
Abbreviation UpdateMemoryRequirements :=
  (UpdateMemoryRequirements GetMinMemLimitFromReservation physical_mem).


(** The setters leave the query options alone, so [has_query_option] is the
    same at every point of [UpdateMemoryRequirements]. *)
Lemma has_query_option_set_to_admit v this :
  has_query_option (set_per_backend_mem_to_admit v this) = has_query_option this.
Proof. reflexivity. Qed.

Lemma has_query_option_set_limit v this :
  has_query_option (set_per_backend_mem_limit v this) = has_query_option this.
Proof. reflexivity. Qed.

(** Once the test on the query option is decided, rewrite it wherever a
    setter hides it. *)
Ltac norm_option H :=
  repeat (progress (rewrite ?has_query_option_set_to_admit, ?H; cbn [negb andb orb])).

Lemma has_query_option_init pool_cfg this :
  has_query_option (InitMemToAdmit pool_cfg this) = has_query_option this.
Proof.
  unfold QuerySchedule.InitMemToAdmit. cbv zeta.
  destruct (has_query_option this) eqn:Hopt; norm_option Hopt.
  - reflexivity.
  - destruct (mimic_old_behaviour pool_cfg); norm_option Hopt; reflexivity.
Qed.

Lemma has_query_option_clamp pool_cfg this :
  has_query_option (ClampMemToAdmit pool_cfg this) = has_query_option this.
Proof.
  unfold ClampMemToAdmit.
  destruct (negb (has_query_option this) || clamp_mem_limit_query_option pool_cfg);
    [| reflexivity].
  destruct (0 <? min_query_mem_limit pool_cfg), (0 <? max_query_mem_limit pool_cfg);
    reflexivity.
Qed.

Lemma has_query_option_cap this :
  has_query_option (CapMemToAdmit this) = has_query_option this.
Proof. reflexivity. Qed.

Lemma init_mem_to_admit pool_cfg this :
  per_backend_mem_to_admit (InitMemToAdmit pool_cfg this) =
    if has_query_option this then mem_limit (query_options this)
    else if mimic_old_behaviour pool_cfg then GetPerHostMemoryEstimate this
    else Z.max (GetPerHostMemoryEstimate this)
           (GetMinMemLimitFromReservation (largest_min_reservation this)).
Proof.
  unfold QuerySchedule.InitMemToAdmit. cbv zeta.
  destruct (has_query_option this) eqn:Hopt; norm_option Hopt.
  - reflexivity.
  - destruct (mimic_old_behaviour pool_cfg); cbn [negb]; [reflexivity |].
    apply std_max_spec.
Qed.

Lemma clamp_mem_to_admit pool_cfg this :
  per_backend_mem_to_admit (ClampMemToAdmit pool_cfg this) =
    if negb (has_query_option this) || clamp_mem_limit_query_option pool_cfg
    then clamp_to_pool_bounds (min_query_mem_limit pool_cfg)
           (max_query_mem_limit pool_cfg) (per_backend_mem_to_admit this)
    else per_backend_mem_to_admit this.
Proof.
  unfold ClampMemToAdmit, clamp_to_pool_bounds.
  destruct (negb (has_query_option this) || clamp_mem_limit_query_option pool_cfg);
    [| reflexivity].
  destruct (0 <? min_query_mem_limit pool_cfg), (0 <? max_query_mem_limit pool_cfg);
    cbn; rewrite ?std_min_spec, ?std_max_spec; reflexivity.
Qed.

Lemma cap_mem_to_admit this :
  per_backend_mem_to_admit (CapMemToAdmit this) =
    Z.min (per_backend_mem_to_admit this) physical_mem.
Proof. cbn. apply std_min_spec. Qed.

Lemma set_mem_limit_to_admit pool_cfg this :
  per_backend_mem_to_admit (SetMemLimit pool_cfg this) = per_backend_mem_to_admit this.
Proof.
  unfold SetMemLimit.
  destruct (mimic_old_behaviour pool_cfg && negb (has_query_option this)); reflexivity.
Qed.

Lemma set_mem_limit_limit pool_cfg this :
  per_backend_mem_limit (SetMemLimit pool_cfg this) =
    if mimic_old_behaviour pool_cfg && negb (has_query_option this)
    then no_mem_limit else per_backend_mem_to_admit this.
Proof.
  unfold SetMemLimit.
  destruct (mimic_old_behaviour pool_cfg && negb (has_query_option this)); reflexivity.
Qed.

(** The value [UpdateMemoryRequirements] leaves in
    [per_backend_mem_to_admit_], stage by stage. *)
Lemma update_mem_to_admit pool_cfg this :
  per_backend_mem_to_admit (UpdateMemoryRequirements pool_cfg this) =
    Z.min
      (per_backend_mem_to_admit (ClampMemToAdmit pool_cfg (InitMemToAdmit pool_cfg this)))
      physical_mem.
Proof.
  unfold QuerySchedule.UpdateMemoryRequirements.
  now rewrite set_mem_limit_to_admit, cap_mem_to_admit.
Qed.

Lemma update_mem_limit pool_cfg this :
  per_backend_mem_limit (UpdateMemoryRequirements pool_cfg this) =
    if mimic_old_behaviour pool_cfg && negb (has_query_option this)
    then no_mem_limit
    else per_backend_mem_to_admit (UpdateMemoryRequirements pool_cfg this).
Proof.
  unfold QuerySchedule.UpdateMemoryRequirements.
  rewrite set_mem_limit_limit, set_mem_limit_to_admit.
  now rewrite has_query_option_cap, has_query_option_clamp, has_query_option_init.
Qed.

Lemma update_keeps_request pool_cfg this :
  let this' := UpdateMemoryRequirements pool_cfg this in
  query_id this' = query_id this /\ request_pool this' = request_pool this /\
  largest_min_reservation this' = largest_min_reservation this /\
  query_options this' = query_options this /\
  per_backend_exec_params this' = per_backend_exec_params this.
Proof.
  unfold QuerySchedule.UpdateMemoryRequirements, SetMemLimit, QuerySchedule.CapMemToAdmit,
    ClampMemToAdmit, QuerySchedule.InitMemToAdmit, has_query_option. cbn.
  repeat match goal with |- context [if ?b then _ else _] => destruct b; cbn end;
    repeat split; reflexivity.
Qed.

(** C2. [UpdateMemoryRequirements] starts from the user's memory limit when
    one is given. Otherwise it starts from the planner's per-host estimate,
    and, when the pool's bounds are not both zero, from the larger of that
    estimate and the minimum memory limit derived from the largest initial
    reservation. The value admitted in the end is this starting value after
    the clamping and the cap. *)
Theorem mem_to_admit_starting_value pool_cfg this :
  let start := per_backend_mem_to_admit (InitMemToAdmit pool_cfg this) in
  let min_mem_limit_required :=
    GetMinMemLimitFromReservation (largest_min_reservation this) in
  start =
    (if has_query_option this then mem_limit (query_options this)
     else if mimic_old_behaviour pool_cfg then GetPerHostMemoryEstimate this
     else Z.max (GetPerHostMemoryEstimate this) min_mem_limit_required)
  /\ (has_query_option this = false -> mimic_old_behaviour pool_cfg = false ->
      GetPerHostMemoryEstimate this <= start /\ min_mem_limit_required <= start)
  /\ per_backend_mem_to_admit (UpdateMemoryRequirements pool_cfg this) =
      Z.min
        (if negb (has_query_option this) || clamp_mem_limit_query_option pool_cfg
         then clamp_to_pool_bounds (min_query_mem_limit pool_cfg)
                (max_query_mem_limit pool_cfg) start
         else start)
        physical_mem.
Proof.
  cbv zeta. split; [apply init_mem_to_admit |]. split.
  - intros Hopt Hmimic. rewrite init_mem_to_admit, Hopt, Hmimic. lia.
  - now rewrite update_mem_to_admit, clamp_mem_to_admit, has_query_option_init.
Qed.

(** C3. The starting value is clamped by the pool's bounds exactly when no
    user limit is given or [clamp_mem_limit_query_option] is true; only a
    bound that is set (greater than zero) is applied. With a user limit and
    the option off, the bounds are not applied. *)
Theorem mem_to_admit_clamping pool_cfg this :
  let start := per_backend_mem_to_admit (InitMemToAdmit pool_cfg this) in
  let clamped :=
    per_backend_mem_to_admit (ClampMemToAdmit pool_cfg (InitMemToAdmit pool_cfg this)) in
  let lo := min_query_mem_limit pool_cfg in
  let hi := max_query_mem_limit pool_cfg in
  clamped =
    (if negb (has_query_option this) || clamp_mem_limit_query_option pool_cfg
     then clamp_to_pool_bounds lo hi start else start)
  /\ (has_query_option this = true -> clamp_mem_limit_query_option pool_cfg = false ->
      clamped = start)
  /\ (has_query_option this = false \/ clamp_mem_limit_query_option pool_cfg = true ->
      (0 < hi -> clamped <= hi) /\
      (0 < lo -> hi <= 0 \/ lo <= hi -> lo <= clamped) /\
      (0 < lo -> hi <= 0 -> clamped = Z.max start lo) /\
      (lo <= 0 -> 0 < hi -> clamped = Z.min start hi) /\
      (lo <= 0 -> hi <= 0 -> clamped = start)).
Proof.
  cbv zeta. rewrite clamp_mem_to_admit, has_query_option_init.
  split; [reflexivity |]. split.
  - intros -> ->. reflexivity.
  - intros Hcond.
    assert (negb (has_query_option this) || clamp_mem_limit_query_option pool_cfg = true)
      as -> by (destruct Hcond as [-> | ->]; [reflexivity | apply orb_true_r]).
    repeat split.
    + apply clamp_upper.
    + apply clamp_lower.
    + intros Hlo Hhi. unfold clamp_to_pool_bounds.
      destruct (Z.ltb_spec 0 (min_query_mem_limit pool_cfg)); [| lia].
      destruct (Z.ltb_spec 0 (max_query_mem_limit pool_cfg)); [lia | reflexivity].
    + intros Hlo Hhi. unfold clamp_to_pool_bounds.
      destruct (Z.ltb_spec 0 (min_query_mem_limit pool_cfg)); [lia |].
      destruct (Z.ltb_spec 0 (max_query_mem_limit pool_cfg)); [reflexivity | lia].
    + apply clamp_unset.
Qed.

(** C4. Whatever the request and the pool config, the memory to admit per
    backend is at most the physical memory of a backend: the cap is applied
    last, on every path. *)
Theorem mem_to_admit_capped pool_cfg this :
  per_backend_mem_to_admit (UpdateMemoryRequirements pool_cfg this) <= physical_mem
  /\ per_backend_mem_to_admit (UpdateMemoryRequirements pool_cfg this) =
      Z.min
        (per_backend_mem_to_admit (ClampMemToAdmit pool_cfg (InitMemToAdmit pool_cfg this)))
        physical_mem.
Proof. rewrite update_mem_to_admit. split; [lia | reflexivity]. Qed.

(** C5. The enforced limit equals the memory to admit, except on the old
    path (both pool bounds zero and no user limit): there the limit is -1 and
    the memory to admit keeps its derived value, the planner's estimate
    capped at the physical memory. *)
Theorem mem_limit_follows_mem_to_admit pool_cfg this :
  let this' := UpdateMemoryRequirements pool_cfg this in
  per_backend_mem_limit this' =
    (if mimic_old_behaviour pool_cfg && negb (has_query_option this)
     then -1 else per_backend_mem_to_admit this')
  /\ (min_query_mem_limit pool_cfg = 0 -> max_query_mem_limit pool_cfg = 0 ->
      has_query_option this = false ->
      per_backend_mem_limit this' = -1 /\
      per_backend_mem_to_admit this' = Z.min (GetPerHostMemoryEstimate this) physical_mem).
Proof.
  cbv zeta. split; [apply update_mem_limit |].
  intros Hlo Hhi Hopt.
  assert (Hmimic : mimic_old_behaviour pool_cfg = true).
  { unfold mimic_old_behaviour. now rewrite Hlo, Hhi. }
  rewrite update_mem_limit, update_mem_to_admit, clamp_mem_to_admit,
    has_query_option_init, init_mem_to_admit, Hopt, Hmimic, Hlo, Hhi.
  split; reflexivity.
Qed.

(** C6. The cluster-wide memory charged on admission is the memory to admit
    per backend times the number of participating backends, as 64-bit
    arithmetic computes it; it is the exact product whenever that fits in an
    [int64_t]. *)
Theorem cluster_memory_to_admit this :
  let product :=
    per_backend_mem_to_admit this * Z.of_nat (size (per_backend_exec_params this)) in
  GetClusterMemoryToAdmit this = to_signed product
  /\ (in_range product -> GetClusterMemoryToAdmit this = product).
Proof.
  cbv zeta. unfold GetClusterMemoryToAdmit. split.
  - apply mul_size_wrap.
  - apply mul_size_exact.
Qed.

(** C10. A [mem_limit] query option that is zero or negative counts as no
    user limit: the derivation starts from the planner's estimate, the pool
    bounds are applied whatever [clamp_mem_limit_query_option] says, the
    derived values are those of the same request without the option, and on
    the old path the enforced limit is -1. *)
Theorem nonpositive_mem_limit_is_no_limit pool_cfg this :
  mem_limit (query_options this) <= 0 ->
  let this' := UpdateMemoryRequirements pool_cfg this in
  let unset := UpdateMemoryRequirements pool_cfg (without_mem_limit this) in
  let start := per_backend_mem_to_admit (InitMemToAdmit pool_cfg this) in
  has_query_option this = false
  /\ start =
      (if mimic_old_behaviour pool_cfg then GetPerHostMemoryEstimate this
       else Z.max (GetPerHostMemoryEstimate this)
              (GetMinMemLimitFromReservation (largest_min_reservation this)))
  /\ per_backend_mem_to_admit (ClampMemToAdmit pool_cfg (InitMemToAdmit pool_cfg this)) =
      clamp_to_pool_bounds (min_query_mem_limit pool_cfg)
        (max_query_mem_limit pool_cfg) start
  /\ per_backend_mem_to_admit this' = per_backend_mem_to_admit unset
  /\ per_backend_mem_limit this' = per_backend_mem_limit unset
  /\ (mimic_old_behaviour pool_cfg = true -> per_backend_mem_limit this' = -1).
Proof.
  intros Hlimit. cbv zeta.
  assert (Hopt : has_query_option this = false).
  { unfold has_query_option. destruct (Z.ltb_spec 0 (mem_limit (query_options this))).
    - lia.
    - apply andb_false_r. }
  assert (Hunset : has_query_option (without_mem_limit this) = false) by reflexivity.
  split; [exact Hopt |].
  rewrite !update_mem_limit, !update_mem_to_admit, !clamp_mem_to_admit,
    !has_query_option_init, !init_mem_to_admit, Hopt, Hunset.
  cbn [negb orb andb].
  repeat split.
  intros ->. reflexivity.
Qed.

End Derivation.

(** Without a user limit, in a pool with bounds, the derivation starts from
    the estimate, which here exceeds the reservation-derived minimum. *)
Lemma mem_to_admit_starting_value_witness :
  GetPerHostMemoryEstimate (example_schedule 1 false 0) <=
    per_backend_mem_to_admit
      (InitMemToAdmit example_min_mem_limit
         (example_pool (1024 * 1024) 0 false) (example_schedule 1 false 0)).
Proof.
  apply (mem_to_admit_starting_value example_min_mem_limit example_physical_mem
           (example_pool (1024 * 1024) 0 false) (example_schedule 1 false 0));
    reflexivity.
Defined.

(** A user limit of 8 GB in a pool whose maximum is 4 GB, clamping on. *)
Lemma mem_to_admit_clamping_witness :
  per_backend_mem_to_admit
    (ClampMemToAdmit (example_pool 0 (4 * 1024 * 1024 * 1024) true)
       (InitMemToAdmit example_min_mem_limit
          (example_pool 0 (4 * 1024 * 1024 * 1024) true)
          (example_schedule 1 true (8 * 1024 * 1024 * 1024))))
    <= 4 * 1024 * 1024 * 1024.
Proof.
  apply (mem_to_admit_clamping example_min_mem_limit
           (example_pool 0 (4 * 1024 * 1024 * 1024) true)
           (example_schedule 1 true (8 * 1024 * 1024 * 1024))).
  - right. reflexivity.
  - reflexivity.
Defined.

(** The old path: no bounds in the pool and no user limit. *)
Lemma mem_limit_follows_mem_to_admit_witness :
  per_backend_mem_limit
    (UpdateMemoryRequirements example_min_mem_limit example_physical_mem
       (example_pool 0 0 false) (example_schedule 1 false 0)) = -1
  /\ per_backend_mem_to_admit
      (UpdateMemoryRequirements example_min_mem_limit example_physical_mem
         (example_pool 0 0 false) (example_schedule 1 false 0)) =
      Z.min (GetPerHostMemoryEstimate (example_schedule 1 false 0)) example_physical_mem.
Proof.
  apply (mem_limit_follows_mem_to_admit example_min_mem_limit example_physical_mem
           (example_pool 0 0 false) (example_schedule 1 false 0));
    reflexivity.
Defined.

(** Two backends at 3 GB each. *)
Lemma cluster_memory_to_admit_witness :
  GetClusterMemoryToAdmit
    (set_per_backend_mem_to_admit (3 * 1024 * 1024 * 1024) (example_schedule 1 false 0))
    = 6 * 1024 * 1024 * 1024.
Proof.
  rewrite (proj2 (cluster_memory_to_admit
                    (set_per_backend_mem_to_admit (3 * 1024 * 1024 * 1024)
                       (example_schedule 1 false 0)))).
  - reflexivity.
  - vm_compute. split; discriminate.
Defined.

(** A [mem_limit] option that is set to zero, on the old path. *)
Lemma nonpositive_mem_limit_witness :
  per_backend_mem_limit
    (UpdateMemoryRequirements example_min_mem_limit example_physical_mem
       (example_pool 0 0 true) (example_schedule 1 true 0)) = -1.
Proof.
  apply (nonpositive_mem_limit_is_no_limit example_min_mem_limit example_physical_mem
           (example_pool 0 0 true) (example_schedule 1 true 0)).
  - cbn. lia.
  - reflexivity.
Defined.

(** The class comment of admission-controller.h, computed: a per host
    limit of 40 GB is used, and 400 GB are charged to the pool. *)
Example header_request_is_clamped :
  let updated :=
    UpdateMemoryRequirements example_min_mem_limit (100 * 1024 * 1024 * 1024)
      header_pool header_schedule in
  per_backend_mem_to_admit updated = 40 * 1024 * 1024 * 1024
  /\ per_backend_mem_limit updated = 40 * 1024 * 1024 * 1024
  /\ GetClusterMemoryToAdmit updated = 400 * 1024 * 1024 * 1024.
Proof. vm_compute. repeat split. Qed.

(** Past 64 bits the product wraps: four backends at [2^62] bytes each. *)
Example cluster_memory_wraps :
  GetClusterMemoryToAdmit
    (set_per_backend_mem_to_admit (2 ^ 62) (set_per_backend_mem_to_admit 0
       {| query_id := 0; request_pool := "q1";
          request := {| per_host_mem_estimate := 0 |};
          query_options := {| isset_mem_limit := false; mem_limit := 0 |};
          largest_min_reservation := 0;
          per_backend_exec_params :=
            list_to_map
              ((fun host => (host, {| num_instances := 1 |})) <$>
                 ["h0"; "h1"; "h2"; "h3"]);
          per_backend_mem_to_admit := 0;
          per_backend_mem_limit := 0 |})) = 0.
Proof. vm_compute. reflexivity. Qed.

(** C1. The memory a pool counts as reserved is the larger of the memory
    reported as reserved across the cluster and the memory admitted locally.
    It is not their sum: it falls short of the sum by the smaller of the
    two. *)
Theorem effective_mem_reserved_is_max (stats : AdmissionController.PoolStats.t) :
  let reserved := AdmissionController.PoolStats.agg_mem_reserved_ stats in
  let admitted := AdmissionController.PoolStats.local_mem_admitted_ stats in
  let effective := AdmissionController.PoolStats.EffectiveMemReserved stats in
  effective = Z.max reserved admitted
  /\ reserved <= effective /\ admitted <= effective
  /\ (effective = reserved \/ effective = admitted)
  /\ effective = reserved + admitted - Z.min reserved admitted.
Proof.
  cbv zeta. unfold AdmissionController.PoolStats.EffectiveMemReserved.
  rewrite std_max_spec. lia.
Qed.

End MemoryRequirements.

(** ** Admission and the request queue *)

Module AdmissionProperties.

Import Int64 Int64Facts QuerySchedule AdmissionController Derived Examples.

(** ** The queues under the updates of the state *)

Lemma queue_of_set_queue p p' q st :
  queue_of p (set_queue p' q st) = if decide (p' = p) then q else queue_of p st.
Proof.
  unfold queue_of, set_queue. cbn. rewrite lookup_insert.
  destruct (decide (p' = p)); reflexivity.
Qed.

Lemma queue_of_update_pool_stats p p' f st :
  queue_of p (update_pool_stats p' f st) = queue_of p st.
Proof. reflexivity. Qed.

Lemma queue_of_AdmitQuery p schedule was_queued st :
  queue_of p (AdmitQuery schedule was_queued st) = queue_of p st.
Proof. reflexivity. Qed.

Lemma queue_of_Promise_Set p ref v st :
  queue_of p (fst (Promise_Set ref v st)) = queue_of p st.
Proof. unfold Promise_Set. destruct (promises st !! ref); reflexivity. Qed.

Lemma promises_Promise_Set ref v st :
  promises (fst (Promise_Set ref v st)) !! ref = Some (snd (Promise_Set ref v st)).
Proof.
  unfold Promise_Set. destruct (promises st !! ref) eqn:Hp; cbn.
  - exact Hp.
  - apply lookup_insert_eq.
Qed.

Lemma Promise_Set_unset ref v st :
  promises st !! ref = None -> snd (Promise_Set ref v st) = v.
Proof. unfold Promise_Set. now intros ->. Qed.

Lemma fmap_remove_node id q :
  node_id <$> remove_node id q = filter (fun x => x ≠ id) (node_id <$> q).
Proof.
  unfold remove_node. induction q as [| n q IH]; [reflexivity |].
  rewrite fmap_cons, !filter_cons. cbv beta.
  destruct (decide (node_id n ≠ id)); [rewrite fmap_cons |]; now rewrite IH.
Qed.

Lemma filter_not_elem (id : nat) (q : list nat) :
  id ∉ q -> filter (fun x => x ≠ id) q = q.
Proof.
  induction q as [| x q IH]; [reflexivity |].
  intros Hnot. rewrite not_elem_of_cons in Hnot. destruct Hnot as [Hne Hq].
  rewrite filter_cons.
  destruct (decide (x ≠ id)) as [| Hn]; [now rewrite IH |].
  exfalso. apply Hn. intros ->. now apply Hne.
Qed.

(** ** The ids a history leaves parked *)

Lemma pending_cons p ev history :
  pending p (ev :: history) = apply_event p ev (pending p history).
Proof. reflexivity. Qed.

Lemma pending_app p later earlier :
  pending p (later ++ earlier) = foldr (apply_event p) (pending p earlier) later.
Proof. unfold pending. apply foldr_app. Qed.

Lemma apply_event_elem p ev q x :
  x ∈ apply_event p ev q -> x ∈ q \/ ev = Queued p x.
Proof.
  destruct ev as [p' id | p' id | p' id | p' id | p' id]; cbn; auto;
    destruct (decide (p' = p)) as [-> |]; auto.
  - rewrite elem_of_app, list_elem_of_singleton. intros [H | ->]; auto.
  - rewrite list_elem_of_filter. intros [_ H]; auto.
  - rewrite list_elem_of_filter. intros [_ H]; auto.
Qed.

Lemma pending_queued p history x : x ∈ pending p history -> Queued p x ∈ history.
Proof.
  induction history as [| ev history IH].
  - cbn. intros H. now apply elem_of_nil in H.
  - rewrite pending_cons. intros H.
    destruct (apply_event_elem _ _ _ _ H) as [Hq | ->].
    + right. now apply IH.
    + left.
Qed.

Lemma apply_event_NoDup p ev q :
  NoDup q -> (forall id, ev = Queued p id -> id ∉ q) -> NoDup (apply_event p ev q).
Proof.
  intros Hq Hfresh.
  destruct ev as [p' id | p' id | p' id | p' id | p' id]; cbn; auto;
    destruct (decide (p' = p)) as [-> |]; auto.
  - apply NoDup_app. repeat split; [assumption | | apply NoDup_singleton].
    intros x Hx Hx'. apply list_elem_of_singleton in Hx' as ->.
    now apply (Hfresh id).
  - now apply NoDup_filter.
  - now apply NoDup_filter.
Qed.

Section Properties.

Variable GetMinMemLimitFromReservation : Z -> Z.
Variable physical_mem : Z.
Variable IsPoolConfigValidForCluster : TPoolConfig -> Z -> bool.
Variable GetMaxMemForPool : TPoolConfig -> Z -> Z.
Variable GetMaxQueuedForPool : TPoolConfig -> Z -> Z.
Variable CanAdmitRequest : State -> QuerySchedule.t -> TPoolConfig -> Z -> bool -> bool.

Abbreviation UpdateMemoryRequirements :=
  (UpdateMemoryRequirements GetMinMemLimitFromReservation physical_mem).
Abbreviation RejectImmediately :=
  (RejectImmediately IsPoolConfigValidForCluster GetMaxMemForPool GetMaxQueuedForPool).
Abbreviation SubmitBegin :=
  (SubmitBegin GetMinMemLimitFromReservation physical_mem IsPoolConfigValidForCluster
     GetMaxMemForPool GetMaxQueuedForPool CanAdmitRequest).
Abbreviation SubmitForAdmission :=
  (SubmitForAdmission GetMinMemLimitFromReservation physical_mem
     IsPoolConfigValidForCluster GetMaxMemForPool GetMaxQueuedForPool CanAdmitRequest).
Abbreviation DequeueAttempt := (DequeueAttempt CanAdmitRequest).
Abbreviation DequeueFromPool := (DequeueFromPool CanAdmitRequest).
Abbreviation step :=
  (step GetMinMemLimitFromReservation physical_mem IsPoolConfigValidForCluster
     GetMaxMemForPool GetMaxQueuedForPool CanAdmitRequest).
Abbreviation run :=
  (run GetMinMemLimitFromReservation physical_mem IsPoolConfigValidForCluster
     GetMaxMemForPool GetMaxQueuedForPool CanAdmitRequest).

(** ** What each operation does to the queues *)

Lemma RejectImmediately_accommodates st schedule pool_cfg cluster_size executors :
  RejectImmediately st schedule pool_cfg cluster_size executors = None ->
  CanAccommodateMaxInitialReservation schedule pool_cfg = true.
Proof.
  unfold AdmissionController.RejectImmediately.
  destruct (PoolDisabled pool_cfg); [discriminate |].
  destruct (negb (IsPoolConfigValidForCluster pool_cfg cluster_size)); [discriminate |].
  destruct (GetMaxMemForPool pool_cfg cluster_size <? GetClusterMemoryToAdmit schedule);
    [discriminate |].
  destruct (CanAccommodateMaxInitialReservation schedule pool_cfg);
    [reflexivity | discriminate].
Qed.

Lemma SubmitBegin_schedule st schedule admit_outcome pool_cfg executors st' schedule' r :
  SubmitBegin st schedule admit_outcome pool_cfg executors = (st', schedule', r) ->
  schedule' = UpdateMemoryRequirements pool_cfg schedule.
Proof.
  unfold AdmissionController.SubmitBegin. cbv zeta.
  destruct (RejectImmediately _ _ _ _ _); [| destruct (CanAdmitRequest _ _ _ _ _)];
    try (destruct (Promise_Set _ _ _) as [st1 []]);
    intros [= _ <- _]; reflexivity.
Qed.

Lemma SubmitBegin_queue st schedule admit_outcome pool_cfg executors st' schedule' r p :
  SubmitBegin st schedule admit_outcome pool_cfg executors = (st', schedule', r) ->
  match r with
  | Returned _ => queue_of p st' = queue_of p st
  | Parked node =>
      node_id node = query_id schedule /\
      queue_of p st' =
        if decide (request_pool schedule = p)
        then queue_of p st ++ [node] else queue_of p st
  end.
Proof.
  unfold AdmissionController.SubmitBegin. cbv zeta.
  destruct (RejectImmediately _ _ _ _ _); [| destruct (CanAdmitRequest _ _ _ _ _)].
  - pose proof (queue_of_Promise_Set p admit_outcome REJECTED_OR_TIMED_OUT
                  (set_pool_config_map
                     (<[request_pool schedule := pool_cfg]> (pool_config_map_ st)) st))
      as Hq.
    destruct (Promise_Set _ _ _) as [st1 []]; intros [= <- _ <-]; exact Hq.
  - pose proof (queue_of_Promise_Set p admit_outcome ADMITTED
                  (set_pool_config_map
                     (<[request_pool schedule := pool_cfg]> (pool_config_map_ st)) st))
      as Hq.
    destruct (Promise_Set _ _ _) as [st1 []]; intros [= <- _ <-];
      [rewrite queue_of_AdmitQuery | |]; exact Hq.
  - intros [= <- _ <-]. split.
    + unfold node_id. cbn.
      apply (MemoryRequirements.update_keeps_request
               GetMinMemLimitFromReservation physical_mem pool_cfg schedule).
    + rewrite queue_of_update_pool_stats, queue_of_set_queue.
      destruct (decide (request_pool schedule = p)) as [-> |]; reflexivity.
Qed.

Lemma DequeueAttempt_inv st pool_name cluster_size st' ev :
  DequeueAttempt st pool_name cluster_size = Some (st', ev) ->
  exists node rest pool_cfg,
    queue_of pool_name st = node :: rest /\
    pool_config_map_ st !! pool_name = Some pool_cfg /\
    CanAdmitRequest st (schedule node) pool_cfg cluster_size true = true /\
    (ev = AdmittedFromQueue pool_name (node_id node) \/
     ev = LeftQueue pool_name (node_id node)) /\
    forall p, queue_of p st' = if decide (pool_name = p) then rest else queue_of p st.
Proof.
  unfold AdmissionController.DequeueAttempt.
  destruct (queue_of pool_name st) as [| node rest] eqn:Hq; [discriminate |].
  destruct (pool_config_map_ st !! pool_name) as [pool_cfg |] eqn:Hcfg; [| discriminate].
  destruct (CanAdmitRequest st (schedule node) pool_cfg cluster_size true) eqn:Hcan;
    [| discriminate].
  destruct (Promise_Set (admit_outcome node) ADMITTED st) as [st1 outcome] eqn:Hset.
  assert (Hq1 : forall p, queue_of p st1 = queue_of p st).
  { intros p. replace st1 with (fst (Promise_Set (admit_outcome node) ADMITTED st))
      by now rewrite Hset. apply queue_of_Promise_Set. }
  intros Hev. exists node, rest, pool_cfg. repeat split; try assumption.
  - destruct outcome; injection Hev as <- <-; auto.
  - intros p.
    assert (Hst' : queue_of p st' =
                   queue_of p (update_pool_stats pool_name
                                 (PoolStats.Dequeue (schedule node) false)
                                 (set_queue pool_name rest st1))).
    { destruct outcome; injection Hev as <- _; reflexivity. }
    rewrite Hst', queue_of_update_pool_stats, queue_of_set_queue, Hq1. reflexivity.
Qed.

Lemma SubmitEnd_queue st node st' status p :
  SubmitEnd st node = (st', status) ->
  queue_of p st' =
    match wake_event st node status with
    | Some _ =>
        if decide (request_pool (schedule node) = p)
        then remove_node (node_id node) (queue_of p st) else queue_of p st
    | None => queue_of p st
    end.
Proof.
  unfold SubmitEnd, wake_event.
  destruct (Promise_Set (admit_outcome node) REJECTED_OR_TIMED_OUT st)
    as [st1 outcome] eqn:Hset.
  assert (Hq1 : forall p, queue_of p st1 = queue_of p st).
  { intros p'. replace st1 with
      (fst (Promise_Set (admit_outcome node) REJECTED_OR_TIMED_OUT st))
      by now rewrite Hset. apply queue_of_Promise_Set. }
  rewrite <- (Hq1 (request_pool (schedule node))).
  destruct outcome; intros [= <- <-]; rewrite <- ?Hq1; try reflexivity;
    destruct (bool_decide _); try reflexivity;
    rewrite queue_of_update_pool_stats, queue_of_set_queue;
    destruct (decide (request_pool (schedule node) = p)) as [-> |]; reflexivity.
Qed.

(** ** Runs *)

Lemma step_event_queue history st ev st' p :
  step history st ev st' ->
  (forall q, pending q history = node_id <$> queue_of q st) ->
  NoDup (pending p history) ->
  node_id <$> queue_of p st' = pending p (record ev history) /\
  NoDup (pending p (record ev history)).
Proof.
  intros Hstep Hinv Hnodup.
  destruct Hstep as [schedule ao pool_cfg executors st' schedule' r Hfresh Hsub
                    | pool_name cluster_size st' ev Hdeq
                    | node st' status Hend
                    | ref
                    | st' Hqueues _ _].
  - pose proof (SubmitBegin_queue _ _ _ _ _ _ _ _ p Hsub) as Hq.
    cbn [record]. rewrite pending_cons.
    destruct r as [status | node].
    + rewrite Hq, <- Hinv.
      destruct status; cbn; now split.
    + destruct Hq as [Hid Hq]. rewrite Hq. cbn [submit_event apply_event].
      split.
      * destruct (decide (request_pool schedule = p)); [| now rewrite Hinv].
        now rewrite fmap_app, Hinv, <- Hid.
      * apply (apply_event_NoDup p (Queued (request_pool schedule) (query_id schedule)));
          [assumption |].
        intros id [= _ <-] Hin. apply pending_queued in Hin. now apply (Hfresh p).
  - destruct (DequeueAttempt_inv _ _ _ _ _ Hdeq)
      as (node & rest & pool_cfg & Hhead & _ & _ & Hev & Hq).
    cbn [record]. rewrite pending_cons, Hq. split.
    + assert (Happly : apply_event p ev (pending p history) =
                       if decide (pool_name = p)
                       then filter (fun x => x ≠ node_id node) (pending p history)
                       else pending p history).
      { destruct Hev as [-> | ->]; reflexivity. }
      rewrite Happly. destruct (decide (pool_name = p)) as [<- |]; [| now rewrite Hinv].
      rewrite Hinv, Hhead in Hnodup |- *. rewrite fmap_cons in Hnodup |- *.
      apply NoDup_cons in Hnodup as [Hnot _].
      rewrite filter_cons. destruct (decide (node_id node ≠ node_id node)); [congruence |].
      now rewrite filter_not_elem.
    + apply apply_event_NoDup; [assumption |].
      intros id ->. destruct Hev; discriminate.
  - pose proof (SubmitEnd_queue _ _ _ _ p Hend) as Hq.
    destruct (wake_event st node status) as [ev |] eqn:Hev; cbn [record].
    + assert (ev = LeftQueue (request_pool (schedule node)) (node_id node)) as ->.
      { unfold wake_event in Hev. destruct status; try discriminate;
          destruct (bool_decide _); congruence. }
      rewrite pending_cons, Hq. split.
      * cbn [apply_event].
        destruct (decide (request_pool (schedule node) = p)); [| now rewrite Hinv].
        now rewrite fmap_remove_node, Hinv.
      * apply apply_event_NoDup; [assumption | discriminate].
    + split; [now rewrite Hq, Hinv | assumption].
  - cbn [record]. split; [now rewrite queue_of_Promise_Set, Hinv | assumption].
  - cbn [record]. split; [| assumption].
    unfold queue_of. rewrite Hqueues. fold (queue_of p st). now rewrite Hinv.
Qed.

(** The ids parked in a queue are those its history leaves pending, and no
    id is parked twice. *)
Lemma run_queues st history :
  run st history ->
  forall p, pending p history = node_id <$> queue_of p st /\ NoDup (pending p history).
Proof.
  induction 1 as [| st history ev st' Hrun IH Hstep].
  - intros p. split; [reflexivity | apply NoDup_nil_2].
  - intros p.
    destruct (step_event_queue history st ev st' p Hstep) as [Hq Hnodup].
    + intros q. apply IH.
    + apply IH.
    + split; [now rewrite Hq | assumption].
Qed.

(** Every event of a history was shown by a step of an earlier run. *)
Lemma run_split st later e earlier :
  run st (later ++ e :: earlier) ->
  exists st0 st1, run st0 earlier /\ step earlier st0 (Some e) st1.
Proof.
  intros Hrun. remember (later ++ e :: earlier) as history eqn:Hh.
  revert later Hh.
  induction Hrun as [| st history ev st' Hrun IH Hstep]; intros later Hh.
  - now destruct later.
  - destruct ev as [e' |]; cbn [record] in Hh; [| now apply (IH later)].
    destruct later as [| e'' later]; cbn in Hh; injection Hh as -> ->.
    + now exists st, st'.
    + now apply (IH later).
Qed.

(** Only a submission shows [Queued], and only under a fresh id. *)
Lemma step_queued_fresh history st p id st' :
  step history st (Some (Queued p id)) st' ->
  forall p', Queued p' id ∉ history.
Proof.
  intros Hstep. remember (Some (Queued p id)) as ev eqn:Hev.
  destruct Hstep as [schedule ao pool_cfg executors st' schedule' r Hfresh Hsub
                    | pool_name cluster_size st' ev Hdeq
                    | node st' status Hend | ref | st' _ _ _].
  - destruct r as [[| |] |]; cbn in Hev; try discriminate.
    injection Hev as _ <-. exact Hfresh.
  - destruct (DequeueAttempt_inv _ _ _ _ _ Hdeq) as (? & ? & ? & _ & _ & _ & Hk & _).
    destruct Hk as [-> | ->]; discriminate.
  - unfold wake_event in Hev.
    destruct status; try discriminate; destruct (bool_decide _); discriminate.
  - discriminate.
  - discriminate.
Qed.

(** Only the dequeue thread shows [AdmittedFromQueue], for the head of the
    queue, when it can be admitted. *)
Lemma step_admitted_from_queue history st p id st' :
  step history st (Some (AdmittedFromQueue p id)) st' ->
  exists node rest pool_cfg cluster_size,
    queue_of p st = node :: rest /\ node_id node = id /\
    pool_config_map_ st !! p = Some pool_cfg /\
    CanAdmitRequest st (schedule node) pool_cfg cluster_size true = true.
Proof.
  intros Hstep. remember (Some (AdmittedFromQueue p id)) as ev eqn:Hev.
  destruct Hstep as [schedule ao pool_cfg executors st' schedule' r Hfresh Hsub
                    | pool_name cluster_size st' ev Hdeq
                    | node st' status Hend | ref | st' _ _ _].
  - destruct r as [[| |] |]; discriminate.
  - destruct (DequeueAttempt_inv _ _ _ _ _ Hdeq)
      as (node & rest & pool_cfg & Hhead & Hcfg & Hcan & Hk & _).
    destruct Hk as [-> | ->]; [| discriminate].
    injection Hev as <- <-. now exists node, rest, pool_cfg, cluster_size.
  - unfold wake_event in Hev.
    destruct status; try discriminate; destruct (bool_decide _); discriminate.
  - discriminate.
  - discriminate.
Qed.

(** ** First in, first out *)

Lemma ahead_apply p a b ev q :
  ahead a b q ->
  ev ≠ AdmittedFromQueue p a -> ev ≠ LeftQueue p a ->
  ahead a b (apply_event p ev q).
Proof.
  intros (l & l' & -> & Hb) Hadm Hleft.
  assert (Hfilter : forall c, c ≠ a -> ahead a b (filter (fun x => x ≠ c) (l ++ a :: l'))).
  { intros c Hc. exists (filter (fun x => x ≠ c) l), (filter (fun x => x ≠ c) l').
    split.
    - rewrite filter_app, filter_cons.
      destruct (decide (a ≠ c)) as [| Hn]; [reflexivity |].
      exfalso. apply Hn. intros ->. now apply Hc.
    - rewrite list_elem_of_filter. intros [_ H]. now apply Hb. }
  destruct ev as [p' id | p' id | p' id | p' id | p' id]; cbn;
    try (now exists l, l');
    destruct (decide (p' = p)) as [-> |]; try (now exists l, l').
  - exists l, (l' ++ [id]). split; [| assumption].
    now rewrite <- app_assoc.
  - apply Hfilter. intros ->. now apply Hadm.
  - apply Hfilter. intros ->. now apply Hleft.
Qed.

Lemma ahead_foldr p a b later q :
  ahead a b q ->
  departed p a later \/ ahead a b (foldr (apply_event p) q later).
Proof.
  intros Hq. induction later as [| ev later IH]; [now right |].
  destruct IH as [[H | H] | IH].
  - left. left. now right.
  - left. right. now right.
  - destruct (decide (ev = AdmittedFromQueue p a)) as [-> | Hadm].
    { left. left. now left. }
    destruct (decide (ev = LeftQueue p a)) as [-> | Hleft].
    { left. right. now left. }
    right. cbn. now apply ahead_apply.
Qed.

Lemma ahead_not_head a b q rest : ahead a b q -> a ≠ b -> q ≠ b :: rest.
Proof.
  intros (l & l' & -> & Hb) Hne Heq. destruct l as [| x l]; cbn in Heq.
  - injection Heq as Heq _. now apply Hne.
  - injection Heq as -> _. apply Hb. now left.
Qed.

(** When the dequeue thread admits [b], every request parked before [b] in
    the same pool has left the queue. *)
Lemma admitted_from_queue_after_earlier st p a b t3 t2 t1 :
  run st (AdmittedFromQueue p b :: t3 ++ Queued p b :: t2 ++ Queued p a :: t1) ->
  departed p a (t3 ++ t2).
Proof.
  intros Hrun.
  destruct (run_split st [] _ _ Hrun) as (st0 & st1 & Hrun0 & Hstep).
  destruct (step_admitted_from_queue _ _ _ _ _ Hstep)
    as (node & rest & _ & _ & Hhead & Hid & _).
  destruct (run_queues _ _ Hrun0 p) as [Hpending _].
  rewrite Hhead, fmap_cons, Hid in Hpending.
  destruct (run_split st0 t3 _ _ Hrun0) as (st2 & st3 & _ & Hstepb).
  pose proof (step_queued_fresh _ _ _ _ _ Hstepb p) as Hfresh.
  assert (Hne : a ≠ b).
  { intros ->. apply Hfresh. rewrite elem_of_app. right. now left. }
  assert (Hahead : ahead a b (pending p (Queued p a :: t1))).
  { exists (pending p t1), []. split.
    - rewrite pending_cons. cbn. now destruct (decide (p = p)).
    - intros Hin. apply pending_queued in Hin. apply Hfresh.
      rewrite elem_of_app. right. now right. }
  replace (t3 ++ Queued p b :: t2 ++ Queued p a :: t1)
    with ((t3 ++ Queued p b :: t2) ++ Queued p a :: t1) in Hpending
    by now rewrite <- app_assoc.
  rewrite pending_app in Hpending.
  destruct (ahead_foldr p a b (t3 ++ Queued p b :: t2) _ Hahead) as [Hdep | Hah].
  - unfold departed in *. rewrite !elem_of_app, !elem_of_cons in Hdep.
    rewrite !elem_of_app.
    destruct Hdep as [[H | [H | H]] | [H | [H | H]]]; try discriminate; auto.
  - exfalso. exact (ahead_not_head _ _ _ _ Hah Hne Hpending).
Qed.

(** While the head of a queue cannot be admitted, the dequeue thread admits
    nothing from that queue. *)
Lemma DequeueFromPool_blocked st p node rest pool_cfg cluster_size n :
  queue_of p st = node :: rest ->
  pool_config_map_ st !! p = Some pool_cfg ->
  CanAdmitRequest st (schedule node) pool_cfg cluster_size true = false ->
  DequeueFromPool n st p cluster_size = (st, []).
Proof.
  intros Hhead Hcfg Hcan. destruct n as [| n]; [reflexivity |].
  cbn. unfold AdmissionController.DequeueAttempt. now rewrite Hhead, Hcfg, Hcan.
Qed.

(** C9. Within one pool of one coordinator the queue is first in, first
    out. If [a] was parked before [b] in the same pool, then by the time [b]
    is admitted from the queue, [a] has been admitted from it or has left it
    (cancelled or timed out). Only the head of a queue is admitted, and only
    when it can be; while it cannot, nothing behind it is admitted. A
    history lists the most recent event first. *)
Theorem fifo_within_pool :
  (forall st p a b t4 t3 t2 t1,
      run st (t4 ++ AdmittedFromQueue p b :: t3 ++ Queued p b :: t2 ++ Queued p a :: t1) ->
      departed p a (t3 ++ t2))
  /\ (forall history st p b st',
        step history st (Some (AdmittedFromQueue p b)) st' ->
        exists node rest pool_cfg cluster_size,
          queue_of p st = node :: rest /\ node_id node = b /\
          pool_config_map_ st !! p = Some pool_cfg /\
          CanAdmitRequest st (schedule node) pool_cfg cluster_size true = true)
  /\ (forall st p node rest pool_cfg cluster_size n,
        queue_of p st = node :: rest ->
        pool_config_map_ st !! p = Some pool_cfg ->
        CanAdmitRequest st (schedule node) pool_cfg cluster_size true = false ->
        DequeueFromPool n st p cluster_size = (st, [])).
Proof.
  split; [| split].
  - intros st p a b t4 t3 t2 t1 Hrun.
    destruct (run_split st t4 _ _ Hrun) as (st0 & st1 & Hrun0 & Hstep).
    apply (admitted_from_queue_after_earlier st1 p a b t3 t2 t1).
    now apply (run_step _ _ _ _ _ _ st0 _ (Some (AdmittedFromQueue p b)) st1).
  - apply step_admitted_from_queue.
  - apply DequeueFromPool_blocked.
Qed.

(** ** The outcome of a submission *)

Lemma SubmitEnd_outcome st node st' status :
  SubmitEnd st node = (st', status) ->
  let outcome := promises st' !! admit_outcome node in
  (outcome = Some ADMITTED /\ status = Status_OK) \/
  (outcome = Some CANCELLED /\ status = Status_CANCELLED) \/
  (outcome = Some REJECTED_OR_TIMED_OUT /\ status = Status_Error QueueTimedOut).
Proof.
  unfold SubmitEnd.
  pose proof (promises_Promise_Set (admit_outcome node) REJECTED_OR_TIMED_OUT st) as Hp.
  destruct (Promise_Set (admit_outcome node) REJECTED_OR_TIMED_OUT st) as [st1 outcome].
  cbn [fst snd] in Hp. cbv zeta.
  destruct outcome; intros [= <- <-].
  - left. now split.
  - right. right. split; [| reflexivity]. now destruct (bool_decide _).
  - right. left. split; [| reflexivity]. now destruct (bool_decide _).
Qed.

Lemma Promise_Set_new ref v st :
  promises st !! ref = None ->
  Promise_Set ref v st = (set_promises (<[ref := v]> (promises st)) st, v).
Proof. unfold Promise_Set. now intros ->. Qed.

Lemma Promise_Set_held ref v st held :
  promises st !! ref = Some held -> Promise_Set ref v st = (st, held).
Proof. unfold Promise_Set. now intros ->. Qed.

(** C8, as amended. The promise of a request is new when the call starts,
    or the client has already set it to CANCELLED. The call returns one of
    three pairs of outcome and status. With a new promise: a request that
    must be rejected is marked REJECTED_OR_TIMED_OUT and returned with the
    reason, and is not parked; a request that can be admitted at once is
    admitted by [AdmitQuery], marked ADMITTED and returned with OK. When the
    client cancelled first, both of these return CANCELLED with the
    cancelled status instead, and nothing is parked or charged. Any other
    request waits, and the call returns ADMITTED with OK, CANCELLED with
    the cancelled status, or REJECTED_OR_TIMED_OUT with the timeout as the
    reason. *)
Theorem submit_for_admission_outcomes
    st schedule admit_outcome pool_cfg executors others st' schedule' status :
  promises st !! admit_outcome = None \/ promises st !! admit_outcome = Some CANCELLED ->
  SubmitForAdmission st schedule admit_outcome pool_cfg executors others
    = (st', schedule', status) ->
  let cluster_size := GetClusterSize executors in
  let updated := UpdateMemoryRequirements pool_cfg schedule in
  let st0 :=
    set_pool_config_map (<[request_pool schedule := pool_cfg]> (pool_config_map_ st)) st in
  let outcome := promises st' !! admit_outcome in
  schedule' = updated
  /\ ((outcome = Some ADMITTED /\ status = Status_OK) \/
      (outcome = Some CANCELLED /\ status = Status_CANCELLED) \/
      (outcome = Some REJECTED_OR_TIMED_OUT /\ exists reason, status = Status_Error reason))
  /\ match RejectImmediately st0 updated pool_cfg cluster_size executors with
     | Some reason =>
         request_queue_map_ st' = request_queue_map_ st /\
         pool_stats_ st' = pool_stats_ st /\
         match promises st !! admit_outcome with
         | None => outcome = Some REJECTED_OR_TIMED_OUT /\ status = Status_Error reason
         | Some _ => outcome = Some CANCELLED /\ status = Status_CANCELLED
         end
     | None =>
         if CanAdmitRequest st0 updated pool_cfg cluster_size false then
           match promises st !! admit_outcome with
           | None =>
               outcome = Some ADMITTED /\ status = Status_OK /\
               st' = AdmitQuery updated false (fst (Promise_Set admit_outcome ADMITTED st0))
           | Some _ =>
               outcome = Some CANCELLED /\ status = Status_CANCELLED /\ st' = st0
           end
         else
           (outcome = Some ADMITTED /\ status = Status_OK) \/
           (outcome = Some CANCELLED /\ status = Status_CANCELLED) \/
           (outcome = Some REJECTED_OR_TIMED_OUT /\ status = Status_Error QueueTimedOut)
     end.
Proof.
  intros Hpromise. cbv zeta.
  unfold AdmissionController.SubmitForAdmission, AdmissionController.SubmitBegin.
  cbv zeta.
  set (st0 := set_pool_config_map _ st).
  set (updated := UpdateMemoryRequirements pool_cfg schedule).
  assert (Hpromise0 : promises st0 !! admit_outcome = promises st !! admit_outcome)
    by reflexivity.
  destruct (RejectImmediately st0 updated pool_cfg (GetClusterSize executors) executors)
    as [reason |].
  - destruct Hpromise as [Hunset | Hcancelled].
    + rewrite (Promise_Set_new _ _ st0) by now rewrite Hpromise0.
      intros [= <- <- <-]. rewrite Hunset. cbn [promises set_promises].
      rewrite lookup_insert_eq.
      split; [reflexivity |]. split; [right; right; eauto |].
      repeat split.
    + rewrite (Promise_Set_held _ _ st0 CANCELLED) by now rewrite Hpromise0.
      intros [= <- <- <-]. rewrite Hcancelled.
      split; [reflexivity |]. split; [right; left; now split |].
      repeat split. exact Hcancelled.
  - destruct (CanAdmitRequest st0 updated pool_cfg (GetClusterSize executors) false).
    + destruct Hpromise as [Hunset | Hcancelled].
      * rewrite (Promise_Set_new _ _ st0) by now rewrite Hpromise0.
        intros [= <- <- <-]. rewrite Hunset.
        assert (Hout : promises
                         (AdmitQuery updated false
                            (set_promises (<[admit_outcome := ADMITTED]> (promises st0)) st0))
                         !! admit_outcome = Some ADMITTED)
          by (cbn; apply lookup_insert_eq).
        split; [reflexivity |]. split; [left; now split |].
        repeat split; exact Hout.
      * rewrite (Promise_Set_held _ _ st0 CANCELLED) by now rewrite Hpromise0.
        intros [= <- <- <-]. rewrite Hcancelled.
        split; [reflexivity |]. split; [right; left; now split |].
        repeat split. exact Hcancelled.
    + match goal with
      | |- context [SubmitEnd ?s ?n] =>
          destruct (SubmitEnd s n) as [st2 status2] eqn:Hend
      end.
      intros [= <- <- <-].
      pose proof (SubmitEnd_outcome _ _ _ _ Hend) as Hout. cbn in Hout.
      split; [reflexivity |]. split; [| exact Hout].
      destruct Hout as [H | [H | [H1 H2]]]; eauto 6.
Qed.

(** ** The initial reservation of an admitted query *)

Lemma mem_to_admit_nonneg pool_cfg schedule :
  0 < physical_mem ->
  0 <= per_host_mem_estimate (request schedule) ->
  mimic_old_behaviour pool_cfg && negb (has_query_option schedule) = false ->
  0 <= per_backend_mem_to_admit (UpdateMemoryRequirements pool_cfg schedule).
Proof.
  intros Hphys Hest Hpath.
  rewrite MemoryRequirements.update_mem_to_admit,
    MemoryRequirements.clamp_mem_to_admit, MemoryRequirements.has_query_option_init,
    MemoryRequirements.init_mem_to_admit.
  assert (Hstart :
    0 <= (if has_query_option schedule then mem_limit (query_options schedule)
          else if mimic_old_behaviour pool_cfg then GetPerHostMemoryEstimate schedule
          else Z.max (GetPerHostMemoryEstimate schedule)
                 (GetMinMemLimitFromReservation (largest_min_reservation schedule)))).
  { destruct (has_query_option schedule) eqn:Hopt.
    - unfold has_query_option in Hopt. apply andb_true_iff in Hopt as [_ Hpos].
      apply Z.ltb_lt in Hpos. lia.
    - destruct (mimic_old_behaviour pool_cfg); [discriminate |].
      unfold GetPerHostMemoryEstimate. lia. }
  destruct (negb (has_query_option schedule) || clamp_mem_limit_query_option pool_cfg).
  - pose proof (MemoryRequirements.clamp_nonneg (min_query_mem_limit pool_cfg)
                  (max_query_mem_limit pool_cfg) _ Hstart). lia.
  - lia.
Qed.

(** C7. A query that [SubmitForAdmission] admits has room for its largest
    initial reservation in the memory admitted per backend, unless it took
    the old path (both pool bounds zero and no user limit). Sizes of memory
    are not negative: the physical memory is positive and the planner's
    estimate is at least zero. *)
Theorem admitted_mem_covers_initial_reservation
    st schedule admit_outcome pool_cfg executors others st' schedule' :
  0 < physical_mem ->
  0 <= per_host_mem_estimate (request schedule) ->
  SubmitForAdmission st schedule admit_outcome pool_cfg executors others
    = (st', schedule', Status_OK) ->
  mimic_old_behaviour pool_cfg && negb (has_query_option schedule) = false ->
  largest_min_reservation schedule' <= per_backend_mem_to_admit schedule'.
Proof.
  intros Hphys Hest Hsubmit Hpath.
  pose proof (mem_to_admit_nonneg pool_cfg schedule Hphys Hest Hpath) as Hnonneg.
  pose proof (MemoryRequirements.update_mem_limit GetMinMemLimitFromReservation
                physical_mem pool_cfg schedule) as Hlimit.
  rewrite Hpath in Hlimit.
  revert Hsubmit.
  unfold AdmissionController.SubmitForAdmission, AdmissionController.SubmitBegin.
  cbv zeta.
  set (st0 := set_pool_config_map _ st).
  set (updated := UpdateMemoryRequirements pool_cfg schedule) in *.
  destruct (RejectImmediately st0 updated pool_cfg (GetClusterSize executors) executors)
    as [reason |] eqn:Hreject.
  { destruct (Promise_Set _ _ _) as [st1 []]; intros Heq; discriminate Heq. }
  apply RejectImmediately_accommodates in Hreject.
  assert (Hgoal : largest_min_reservation updated <= per_backend_mem_to_admit updated).
  { unfold CanAccommodateMaxInitialReservation in Hreject. cbv zeta in Hreject.
    rewrite Hlimit in Hreject. unfold no_mem_limit in Hreject.
    destruct (Z.eqb_spec (per_backend_mem_to_admit updated) (-1)); [lia |].
    apply negb_true_iff, Z.ltb_ge in Hreject. exact Hreject. }
  destruct (CanAdmitRequest st0 updated pool_cfg (GetClusterSize executors) false).
  - destruct (Promise_Set _ _ _) as [st1 []]; intros Heq; try discriminate Heq.
    injection Heq as _ <-. exact Hgoal.
  - match goal with
    | |- context [SubmitEnd ?s ?n] => destruct (SubmitEnd s n) as [st2 status2]
    end.
    intros [= _ <- _]. exact Hgoal.
Qed.

End Properties.

(** *** The scenarios of the spec *)

(** Scenario 1: the request is admitted; 500 GB are admitted locally and
    one query runs. *)
Example scenario_happy_path :
  let '(st, _, status) :=
    scenario_submit scenario_pool
      (scenario_schedule (50 * 1024 * 1024 * 1024) (1024 * 1024 * 1024)) in
  status = Status_OK
  /\ promises st !! 1%nat = Some ADMITTED
  /\ PoolStats.local_mem_admitted_ (GetPoolStats "q1" st) = 500 * 1024 * 1024 * 1024
  /\ PoolStats.agg_num_running (GetPoolStats "q1" st) = 1.
Proof. vm_compute. repeat split. Qed.

(** Scenario 4: a pool whose largest query memory is 8 GB rejects a request
    whose initial reservation is 10 GB. *)
Example scenario_initial_reservation_mismatch :
  let '(st, _, status) :=
    scenario_submit example_bounded_pool_8
      (scenario_schedule (1024 * 1024 * 1024) (10 * 1024 * 1024 * 1024)) in
  status = Status_Error InitialReservationTooLarge
  /\ promises st !! 1%nat = Some REJECTED_OR_TIMED_OUT
  /\ queue_of "q1" st = [].
Proof. vm_compute. repeat split. Qed.

(** *** The example run *)

Abbreviation example_step :=
  (step example_min_mem_limit example_physical_mem example_config_valid
     example_max_mem example_max_queued example_can_admit).
Abbreviation example_run :=
  (run example_min_mem_limit example_physical_mem example_config_valid
     example_max_mem example_max_queued example_can_admit).

(** Releasing a query is a step that leaves the queues alone. *)
Lemma ReleaseQuery_step history st schedule peak_mem_consumption :
  example_step history st None (ReleaseQuery schedule peak_mem_consumption st).
Proof. apply step_accounting; reflexivity. Qed.

Ltac fresh_id :=
  let pool := fresh "pool" in
  let Hin := fresh "Hin" in
  intros pool Hin;
  repeat (apply elem_of_cons in Hin as [Hin | Hin]; [discriminate Hin |]);
  now apply elem_of_nil in Hin.

Lemma example_run_reaches :
  example_run example_st7
    [AdmittedFromQueue "default-pool" 2; AdmittedFromQueue "default-pool" 1;
     Queued "default-pool" 2; Queued "default-pool" 1;
     AdmittedImmediately "default-pool" 0].
Proof.
  apply (run_step _ _ _ _ _ _ example_st6 _ (Some (AdmittedFromQueue "default-pool" 2))).
  apply (run_step _ _ _ _ _ _ example_st5 _ None).
  apply (run_step _ _ _ _ _ _ example_st4 _ (Some (AdmittedFromQueue "default-pool" 1))).
  apply (run_step _ _ _ _ _ _ example_st3 _ None).
  apply (run_step _ _ _ _ _ _ example_st2 _ (Some (Queued "default-pool" 2))).
  apply (run_step _ _ _ _ _ _ example_st1 _ (Some (Queued "default-pool" 1))).
  apply (run_step _ _ _ _ _ _ init _ (Some (AdmittedImmediately "default-pool" 0))).
  - apply run_init.
  - apply (step_submit _ _ _ _ _ _ _ _ (example_schedule 0 false 0) 0%nat
             (example_pool 0 0 false) example_executors example_st1
             (example_updated 0) (Returned Status_OK)).
    + fresh_id.
    + vm_compute. reflexivity.
  - apply (step_submit _ _ _ _ _ _ _ _ (example_schedule 1 false 0) 1%nat
             (example_pool 0 0 false) example_executors example_st2
             (example_updated 1)
             (Parked {| schedule := example_updated 1; admit_outcome := 1 |})).
    + fresh_id.
    + vm_compute. reflexivity.
  - apply (step_submit _ _ _ _ _ _ _ _ (example_schedule 2 false 0) 2%nat
             (example_pool 0 0 false) example_executors example_st3
             (example_updated 2)
             (Parked {| schedule := example_updated 2; admit_outcome := 2 |})).
    + fresh_id.
    + vm_compute. reflexivity.
  - exact (ReleaseQuery_step _ example_st3 (example_updated 0) 0).
  - apply (step_dequeue _ _ _ _ _ _ _ _ "default-pool" 2).
    vm_compute. reflexivity.
  - exact (ReleaseQuery_step _ example_st5 (example_updated 1) 0).
  - apply (step_dequeue _ _ _ _ _ _ _ _ "default-pool" 2).
    vm_compute. reflexivity.
Defined.

(** Request 1 was parked before request 2, and is admitted first. *)
Lemma fifo_within_pool_witness :
  departed "default-pool" 1 ([AdmittedFromQueue "default-pool" 1] ++ []).
Proof.
  apply (proj1 (fifo_within_pool example_min_mem_limit example_physical_mem
                  example_config_valid example_max_mem example_max_queued
                  example_can_admit)
           example_st7 "default-pool" 1%nat 2%nat []
           [AdmittedFromQueue "default-pool" 1] []
           [AdmittedImmediately "default-pool" 0]).
  exact example_run_reaches.
Defined.

(** A request that waits behind a running query until its time is up. *)
Lemma submit_for_admission_witness :
  promises (example_timed_out.1.1) !! 1%nat = Some REJECTED_OR_TIMED_OUT
  /\ example_timed_out.2 = Status_Error QueueTimedOut.
Proof.
  assert (Hunset : promises example_st1 !! 1%nat = None) by (vm_compute; reflexivity).
  assert (Hcall : example_timed_out =
                  (example_timed_out.1.1, example_updated 1, example_timed_out.2))
    by (vm_compute; reflexivity).
  pose proof (submit_for_admission_outcomes example_min_mem_limit example_physical_mem
                example_config_valid example_max_mem example_max_queued
                example_can_admit example_st1 (example_schedule 1 false 0) 1%nat
                (example_pool 0 0 false) example_executors id
                _ _ _ (or_introl Hunset) Hcall) as (_ & Hpairs & _).
  destruct Hpairs as [[_ Hst] | [[_ Hst] | [Hout _]]].
  - vm_compute in Hst. discriminate Hst.
  - vm_compute in Hst. discriminate Hst.
  - split; [exact Hout | vm_compute; reflexivity].
Defined.

(** C8, as the claim states it, fails for a request that the client
    cancelled before it was submitted: the disabled pool rejects the request
    at once, yet the promise keeps the client's CANCELLED and the call
    returns the cancelled status, not REJECTED_OR_TIMED_OUT with the
    reason. *)
Lemma submit_for_admission_cancelled_first :
  AdmissionController.RejectImmediately example_config_valid example_max_mem
    example_max_queued
    (set_pool_config_map
       (<[ "default-pool"%string := example_disabled_pool ]>
          (pool_config_map_ example_cancelled_first))
       example_cancelled_first)
    (QuerySchedule.UpdateMemoryRequirements example_min_mem_limit example_physical_mem
       example_disabled_pool (example_schedule 0 false 0))
    example_disabled_pool (GetClusterSize example_executors) example_executors
  = Some PoolDisabledReason
  /\ promises (example_cancelled_rejected.1.1) !! 0%nat = Some CANCELLED
  /\ example_cancelled_rejected.2 = Status_CANCELLED
  /\ ~ (promises (example_cancelled_rejected.1.1) !! 0%nat = Some REJECTED_OR_TIMED_OUT
        /\ exists reason, example_cancelled_rejected.2 = Status_Error reason).
Proof.
  assert (Hout : promises (example_cancelled_rejected.1.1) !! 0%nat = Some CANCELLED)
    by (vm_compute; reflexivity).
  split; [vm_compute; reflexivity |]. split; [exact Hout |].
  split; [vm_compute; reflexivity |].
  intros [Hrejected _]. rewrite Hout in Hrejected. discriminate Hrejected.
Qed.

(** A query admitted at once in a pool with a bound: 2 GB are admitted per
    backend, and its largest initial reservation is 1 GB. *)
Lemma admitted_mem_covers_initial_reservation_witness :
  largest_min_reservation (example_admitted.1.2)
    <= per_backend_mem_to_admit (example_admitted.1.2).
Proof.
  apply (admitted_mem_covers_initial_reservation example_min_mem_limit
           example_physical_mem example_config_valid example_max_mem
           example_max_queued example_can_admit
           init (example_schedule 0 false 0) 0%nat example_bounded_pool
           example_executors id (example_admitted.1.1) (example_admitted.1.2)).
  - reflexivity.
  - cbn. lia.
  - vm_compute. reflexivity.
  - reflexivity.
Defined.

End AdmissionProperties.

(** ** More on the derivation of the memory requirements *)

Module DerivationFacts.

Import Int64 Int64Facts QuerySchedule Derived Examples MemoryRequirements.

(** Two schedules with the same members are the same schedule. *)
Lemma schedule_ext (a b : QuerySchedule.t) :
  query_id a = query_id b -> request_pool a = request_pool b ->
  request a = request b -> query_options a = query_options b ->
  largest_min_reservation a = largest_min_reservation b ->
  per_backend_exec_params a = per_backend_exec_params b ->
  per_backend_mem_to_admit a = per_backend_mem_to_admit b ->
  per_backend_mem_limit a = per_backend_mem_limit b ->
  a = b.
Proof. destruct a, b. cbn. now intros -> -> -> -> -> -> -> ->. Qed.

Section Derivation.

Variable GetMinMemLimitFromReservation : Z -> Z.
Variable physical_mem : Z.

Abbreviation InitMemToAdmit := (InitMemToAdmit GetMinMemLimitFromReservation).
Abbreviation CapMemToAdmit := (CapMemToAdmit physical_mem).
Abbreviation UpdateMemoryRequirements :=
  (UpdateMemoryRequirements GetMinMemLimitFromReservation physical_mem).

Lemma update_keeps_inputs pool_cfg this :
  let this' := UpdateMemoryRequirements pool_cfg this in
  query_id this' = query_id this /\ request_pool this' = request_pool this /\
  request this' = request this /\ query_options this' = query_options this /\
  largest_min_reservation this' = largest_min_reservation this /\
  per_backend_exec_params this' = per_backend_exec_params this.
Proof.
  unfold QuerySchedule.UpdateMemoryRequirements, SetMemLimit, QuerySchedule.CapMemToAdmit,
    ClampMemToAdmit, QuerySchedule.InitMemToAdmit, has_query_option. cbn.
  repeat match goal with |- context [if ?b then _ else _] => destruct b; cbn end;
    repeat split; reflexivity.
Qed.

(** The memory to admit as a function of what the derivation reads. *)
Lemma mem_to_admit_formula pool_cfg this :
  per_backend_mem_to_admit (UpdateMemoryRequirements pool_cfg this) =
    let start :=
      if has_query_option this then mem_limit (query_options this)
      else if mimic_old_behaviour pool_cfg then GetPerHostMemoryEstimate this
      else Z.max (GetPerHostMemoryEstimate this)
             (GetMinMemLimitFromReservation (largest_min_reservation this)) in
    Z.min
      (if negb (has_query_option this) || clamp_mem_limit_query_option pool_cfg
       then clamp_to_pool_bounds (min_query_mem_limit pool_cfg)
              (max_query_mem_limit pool_cfg) start
       else start)
      physical_mem.
Proof.
  cbv zeta.
  now rewrite update_mem_to_admit, clamp_mem_to_admit, has_query_option_init,
    init_mem_to_admit.
Qed.

(** Schedules that agree on what the derivation reads get the same values. *)
Lemma update_same_inputs pool_cfg a b :
  query_options a = query_options b -> request a = request b ->
  largest_min_reservation a = largest_min_reservation b ->
  per_backend_mem_to_admit (UpdateMemoryRequirements pool_cfg a) =
    per_backend_mem_to_admit (UpdateMemoryRequirements pool_cfg b) /\
  per_backend_mem_limit (UpdateMemoryRequirements pool_cfg a) =
    per_backend_mem_limit (UpdateMemoryRequirements pool_cfg b).
Proof.
  intros Hopt Hreq Hres.
  assert (Hhas : has_query_option a = has_query_option b)
    by (unfold has_query_option; now rewrite Hopt).
  assert (Hadm : per_backend_mem_to_admit (UpdateMemoryRequirements pool_cfg a) =
                 per_backend_mem_to_admit (UpdateMemoryRequirements pool_cfg b)).
  { rewrite !mem_to_admit_formula. cbv zeta. unfold GetPerHostMemoryEstimate.
    now rewrite Hhas, Hopt, Hreq, Hres. }
  split; [exact Hadm |].
  now rewrite !update_mem_limit, Hhas, Hadm.
Qed.

(** X1. [UpdateMemoryRequirements] reads neither of the two values it
    writes: whatever they held before is overwritten, and of two calls in a
    row (the pool config may have changed in between) the second alone
    decides. In particular the function is idempotent. *)
Theorem update_memory_requirements_last_call_wins pool_cfg pool_cfg' this stale_admit stale_limit :
  UpdateMemoryRequirements pool_cfg
    (set_per_backend_mem_limit stale_limit
       (set_per_backend_mem_to_admit stale_admit this))
    = UpdateMemoryRequirements pool_cfg this
  /\ UpdateMemoryRequirements pool_cfg (UpdateMemoryRequirements pool_cfg' this)
     = UpdateMemoryRequirements pool_cfg this
  /\ UpdateMemoryRequirements pool_cfg (UpdateMemoryRequirements pool_cfg this)
     = UpdateMemoryRequirements pool_cfg this.
Proof.
  assert (Hagree : forall a b,
    query_id a = query_id b -> request_pool a = request_pool b ->
    request a = request b -> query_options a = query_options b ->
    largest_min_reservation a = largest_min_reservation b ->
    per_backend_exec_params a = per_backend_exec_params b ->
    UpdateMemoryRequirements pool_cfg a = UpdateMemoryRequirements pool_cfg b).
  { intros a b Hid Hpool Hreq Hopt Hres Hparams.
    destruct (update_keeps_inputs pool_cfg a) as (? & ? & ? & ? & ? & ?).
    destruct (update_keeps_inputs pool_cfg b) as (? & ? & ? & ? & ? & ?).
    destruct (update_same_inputs pool_cfg a b Hopt Hreq Hres) as [? ?].
    apply schedule_ext; congruence. }
  destruct (update_keeps_inputs pool_cfg' this) as (? & ? & ? & ? & ? & ?).
  destruct (update_keeps_inputs pool_cfg this) as (? & ? & ? & ? & ? & ?).
  repeat split; apply Hagree; try assumption; reflexivity.
Qed.

(** X2. When the pool's bounds are applied (no user limit, or the clamp
    option is on), the memory to admit never exceeds a set upper bound, and
    it is at least a set lower bound that neither a set upper bound nor the
    physical memory undercuts. *)
Theorem mem_to_admit_within_pool_bounds pool_cfg this :
  has_query_option this = false \/ clamp_mem_limit_query_option pool_cfg = true ->
  let admitted := per_backend_mem_to_admit (UpdateMemoryRequirements pool_cfg this) in
  let lo := min_query_mem_limit pool_cfg in
  let hi := max_query_mem_limit pool_cfg in
  (0 < hi -> admitted <= hi)
  /\ (0 < lo -> hi <= 0 \/ lo <= hi -> lo <= physical_mem -> lo <= admitted).
Proof.
  intros Hcond. cbv zeta. rewrite mem_to_admit_formula. cbv zeta.
  assert (negb (has_query_option this) || clamp_mem_limit_query_option pool_cfg = true)
    as -> by (destruct Hcond as [-> | ->]; [reflexivity | apply orb_true_r]).
  split.
  - intros Hhi.
    pose proof (clamp_upper (min_query_mem_limit pool_cfg) (max_query_mem_limit pool_cfg)
      (if has_query_option this then mem_limit (query_options this)
       else if mimic_old_behaviour pool_cfg then GetPerHostMemoryEstimate this
       else Z.max (GetPerHostMemoryEstimate this)
              (GetMinMemLimitFromReservation (largest_min_reservation this))) Hhi).
    lia.
  - intros Hlo Hhi Hphys.
    pose proof (clamp_lower (min_query_mem_limit pool_cfg) (max_query_mem_limit pool_cfg)
      (if has_query_option this then mem_limit (query_options this)
       else if mimic_old_behaviour pool_cfg then GetPerHostMemoryEstimate this
       else Z.max (GetPerHostMemoryEstimate this)
              (GetMinMemLimitFromReservation (largest_min_reservation this))) Hlo Hhi).
    lia.
Qed.

(** X3. With a user limit and the clamp option off, the pool's bounds, the
    planner's estimate and the initial reservation play no part: the memory
    to admit and the enforced limit are both the user's limit capped at the
    physical memory. *)
Theorem user_limit_without_clamping pool_cfg this :
  has_query_option this = true ->
  clamp_mem_limit_query_option pool_cfg = false ->
  let this' := UpdateMemoryRequirements pool_cfg this in
  per_backend_mem_to_admit this' = Z.min (mem_limit (query_options this)) physical_mem
  /\ per_backend_mem_limit this' = Z.min (mem_limit (query_options this)) physical_mem.
Proof.
  intros Hopt Hclamp. cbv zeta.
  rewrite update_mem_limit, mem_to_admit_formula. cbv zeta.
  rewrite Hopt, Hclamp, andb_false_r. cbn. split; reflexivity.
Qed.

(** X4. With a user limit and positive physical memory, both derived values
    are positive: the enforced limit is never the -1 that means no limit,
    and never zero. *)
Theorem user_limit_gives_positive_limit pool_cfg this :
  has_query_option this = true ->
  0 < physical_mem ->
  let this' := UpdateMemoryRequirements pool_cfg this in
  0 < per_backend_mem_to_admit this'
  /\ per_backend_mem_limit this' = per_backend_mem_to_admit this'.
Proof.
  intros Hopt Hphys. cbv zeta.
  rewrite update_mem_limit, mem_to_admit_formula. cbv zeta.
  rewrite Hopt, andb_false_r. cbn [negb orb]. split; [| reflexivity].
  assert (Hlimit : 0 < mem_limit (query_options this)).
  { unfold has_query_option in Hopt. apply andb_true_iff in Hopt as [_ Hpos].
    now apply Z.ltb_lt. }
  destruct (clamp_mem_limit_query_option pool_cfg).
  - pose proof (clamp_positive (min_query_mem_limit pool_cfg)
                  (max_query_mem_limit pool_cfg) _ Hlimit). lia.
  - lia.
Qed.

(** X5. The memory to admit grows with what the request asks for: a larger
    user limit, or without a user limit a larger planner estimate, never
    gives less memory to admit. *)
Theorem mem_to_admit_monotone pool_cfg a b :
  has_query_option a = has_query_option b ->
  largest_min_reservation a = largest_min_reservation b ->
  mem_limit (query_options a) <= mem_limit (query_options b) ->
  GetPerHostMemoryEstimate a <= GetPerHostMemoryEstimate b ->
  per_backend_mem_to_admit (UpdateMemoryRequirements pool_cfg a)
    <= per_backend_mem_to_admit (UpdateMemoryRequirements pool_cfg b).
Proof.
  intros Hhas Hres Hlimit Hest.
  rewrite !mem_to_admit_formula. cbv zeta. rewrite Hhas, Hres.
  unfold clamp_to_pool_bounds.
  destruct (has_query_option b), (mimic_old_behaviour pool_cfg),
    (clamp_mem_limit_query_option pool_cfg),
    (0 <? min_query_mem_limit pool_cfg), (0 <? max_query_mem_limit pool_cfg);
    cbn [negb orb]; lia.
Qed.

(** X6. For sizes of memory that make sense (positive physical memory, a
    planner estimate that is not negative) and a cluster whose total physical
    memory fits in 64 bits, the cluster-wide memory of an updated schedule
    does not wrap: it is the exact product, between zero and the physical
    memory of all its backends. *)
Theorem cluster_memory_does_not_wrap pool_cfg this :
  0 < physical_mem ->
  0 <= per_host_mem_estimate (request this) ->
  physical_mem * Z.of_nat (size (per_backend_exec_params this)) <= max_value ->
  let this' := UpdateMemoryRequirements pool_cfg this in
  let backends := Z.of_nat (size (per_backend_exec_params this)) in
  GetClusterMemoryToAdmit this' = per_backend_mem_to_admit this' * backends
  /\ 0 <= GetClusterMemoryToAdmit this' <= physical_mem * backends.
Proof.
  intros Hphys Hest Hfits. cbv zeta.
  assert (Hnonneg : 0 <= per_backend_mem_to_admit (UpdateMemoryRequirements pool_cfg this)).
  { rewrite mem_to_admit_formula. cbv zeta.
    assert (Hstart :
      0 <= (if has_query_option this then mem_limit (query_options this)
            else if mimic_old_behaviour pool_cfg then GetPerHostMemoryEstimate this
            else Z.max (GetPerHostMemoryEstimate this)
                   (GetMinMemLimitFromReservation (largest_min_reservation this)))).
    { destruct (has_query_option this) eqn:Hopt.
      - unfold has_query_option in Hopt. apply andb_true_iff in Hopt as [_ Hpos].
        apply Z.ltb_lt in Hpos. lia.
      - unfold GetPerHostMemoryEstimate. destruct (mimic_old_behaviour pool_cfg); lia. }
    destruct (negb (has_query_option this) || clamp_mem_limit_query_option pool_cfg).
    - pose proof (clamp_nonneg (min_query_mem_limit pool_cfg)
                    (max_query_mem_limit pool_cfg) _ Hstart). lia.
    - lia. }
  assert (Hcap : per_backend_mem_to_admit (UpdateMemoryRequirements pool_cfg this)
                 <= physical_mem) by (rewrite update_mem_to_admit; lia).
  destruct (update_keeps_inputs pool_cfg this) as (_ & _ & _ & _ & _ & Hparams).
  unfold GetClusterMemoryToAdmit. rewrite Hparams.
  set (n := Z.of_nat (size (per_backend_exec_params this))) in *.
  set (m := per_backend_mem_to_admit (UpdateMemoryRequirements pool_cfg this)) in *.
  assert (Hn : 0 <= n) by (unfold n; lia).
  assert (Hprod : 0 <= m * n <= physical_mem * n) by nia.
  rewrite mul_size_exact.
  - split; [reflexivity | exact Hprod].
  - unfold in_range, min_value, max_value in *. lia.
Qed.

End Derivation.

(** A user limit of 8 GB in a pool that clamps it to between 1 GB and 4 GB. *)
Lemma mem_to_admit_within_pool_bounds_witness :
  per_backend_mem_to_admit
    (UpdateMemoryRequirements example_min_mem_limit example_physical_mem
       (example_pool (1024 * 1024 * 1024) (4 * 1024 * 1024 * 1024) true)
       (example_schedule 1 true (8 * 1024 * 1024 * 1024)))
    <= 4 * 1024 * 1024 * 1024.
Proof.
  apply (mem_to_admit_within_pool_bounds example_min_mem_limit example_physical_mem
           (example_pool (1024 * 1024 * 1024) (4 * 1024 * 1024 * 1024) true)
           (example_schedule 1 true (8 * 1024 * 1024 * 1024))).
  - right. reflexivity.
  - reflexivity.
Defined.

(** A user limit of 8 GB in a pool whose largest query memory is 4 GB and
    which does not clamp the option. *)
Lemma user_limit_without_clamping_witness :
  per_backend_mem_limit
    (UpdateMemoryRequirements example_min_mem_limit example_physical_mem
       (example_pool 0 (4 * 1024 * 1024 * 1024) false)
       (example_schedule 1 true (8 * 1024 * 1024 * 1024)))
    = Z.min (8 * 1024 * 1024 * 1024) example_physical_mem.
Proof.
  apply (user_limit_without_clamping example_min_mem_limit example_physical_mem
           (example_pool 0 (4 * 1024 * 1024 * 1024) false)
           (example_schedule 1 true (8 * 1024 * 1024 * 1024)));
    reflexivity.
Defined.

Lemma user_limit_gives_positive_limit_witness :
  0 < per_backend_mem_to_admit
        (UpdateMemoryRequirements example_min_mem_limit example_physical_mem
           (example_pool 0 0 false) (example_schedule 1 true 1)).
Proof.
  apply (user_limit_gives_positive_limit example_min_mem_limit example_physical_mem
           (example_pool 0 0 false) (example_schedule 1 true 1));
    reflexivity.
Defined.

(** User limits of 1 GB and of 2 GB, all else equal. *)
Lemma mem_to_admit_monotone_witness :
  per_backend_mem_to_admit
    (UpdateMemoryRequirements example_min_mem_limit example_physical_mem
       (example_pool 0 0 true) (example_schedule 1 true (1024 * 1024 * 1024)))
  <= per_backend_mem_to_admit
       (UpdateMemoryRequirements example_min_mem_limit example_physical_mem
          (example_pool 0 0 true) (example_schedule 1 true (2 * 1024 * 1024 * 1024))).
Proof.
  apply (mem_to_admit_monotone example_min_mem_limit example_physical_mem
           (example_pool 0 0 true)
           (example_schedule 1 true (1024 * 1024 * 1024))
           (example_schedule 1 true (2 * 1024 * 1024 * 1024))).
  - reflexivity.
  - reflexivity.
  - cbn. lia.
  - cbn. lia.
Defined.

(** The request of the header's class comment: ten backends of 64 GB. *)
Lemma cluster_memory_does_not_wrap_witness :
  0 <= GetClusterMemoryToAdmit
         (UpdateMemoryRequirements example_min_mem_limit example_physical_mem
            header_pool header_schedule)
    <= example_physical_mem * 10.
Proof.
  apply (cluster_memory_does_not_wrap example_min_mem_limit example_physical_mem
           header_pool header_schedule).
  - reflexivity.
  - cbn. lia.
  - vm_compute. discriminate.
Defined.

End DerivationFacts.

(** ** The plan side of a schedule *)

Module FragmentPlanFacts.

Import FragmentPlan FragmentPlanNotions.

(** *** Vectors and loops *)

Lemma vec_get_Some {A} (v : list A) i x :
  vec_get v i = Some x <-> 0 <= i /\ v !! Z.to_nat i = Some x.
Proof.
  unfold vec_get. destruct (Z.ltb_spec i 0).
  - split; [discriminate | lia].
  - split; [now split | now intros [_ ?]].
Qed.

Lemma vec_get_in_range {A} (v : list A) i :
  0 <= i < Z.of_nat (length v) -> is_Some (vec_get v i).
Proof.
  intros [Hlo Hhi]. unfold vec_get. destruct (Z.ltb_spec i 0); [lia |].
  apply lookup_lt_is_Some. lia.
Qed.

Lemma vec_get_of_nat {A} (v : list A) (j : nat) : vec_get v (Z.of_nat j) = v !! j.
Proof.
  unfold vec_get. destruct (Z.ltb_spec (Z.of_nat j) 0); [lia |].
  now rewrite Nat2Z.id.
Qed.

Lemma vec_update_Some {A} (f : A -> A) (v v' : list A) i :
  vec_update f v i = Some v' ->
  exists x, 0 <= i /\ v !! Z.to_nat i = Some x /\ v' = <[Z.to_nat i := f x]> v.
Proof.
  unfold vec_update. destruct (vec_get v i) as [x |] eqn:Hget; [| discriminate].
  cbn. intros [= <-]. apply vec_get_Some in Hget as [? ?]. now exists x.
Qed.

Lemma vec_update_in_range {A} (f : A -> A) (v : list A) i :
  0 <= i < Z.of_nat (length v) -> is_Some (vec_update f v i).
Proof.
  intros Hi. unfold vec_update.
  destruct (vec_get_in_range v i Hi) as [x ->]. cbn. eauto.
Qed.

Lemma vec_update_length {A} (f : A -> A) (v v' : list A) i :
  vec_update f v i = Some v' -> length v' = length v.
Proof.
  intros (x & _ & _ & ->)%vec_update_Some. apply length_insert.
Qed.

(** Reading a vector after an update. *)
Lemma vec_update_lookup {A} (f : A -> A) (v v' : list A) i (j : nat) :
  vec_update f v i = Some v' ->
  v' !! j = if decide (Z.of_nat j = i) then f <$> v !! j else v !! j.
Proof.
  intros (x & Hi & Hx & ->)%vec_update_Some.
  destruct (decide (Z.of_nat j = i)) as [<- | Hne].
  - rewrite Nat2Z.id in *. rewrite Hx. cbn.
    apply list_lookup_insert_eq. now apply lookup_lt_Some in Hx.
  - apply list_lookup_insert_ne. lia.
Qed.

Lemma for_each_app {A S} (body : S -> A -> option S) l1 l2 s :
  for_each body (l1 ++ l2) s = for_each body l1 s ≫= for_each body l2.
Proof.
  revert s. induction l1 as [| x l1 IH]; intros s; [reflexivity |].
  cbn. destruct (body s x) as [s' |]; cbn; [apply IH | reflexivity].
Qed.

(** Nested loops visit the concatenation of the inner lists. *)
Lemma for_each_bind {A B S} (body : S -> B -> option S) (inner : A -> list B) l s :
  for_each (fun s x => for_each body (inner x) s) l s = for_each body (l ≫= inner) s.
Proof.
  revert s. induction l as [| x l IH]; intros s; [reflexivity |].
  cbn. rewrite for_each_app.
  destruct (for_each body (inner x) s) as [s' |]; cbn; [apply IH | reflexivity].
Qed.

(** A loop whose body keeps an invariant and is defined under it is defined. *)
Lemma for_each_defined {A S} (I : S -> Prop) (P : A -> Prop)
    (body : S -> A -> option S) l s :
  (forall s x, I s -> P x -> exists s', body s x = Some s' /\ I s') ->
  I s -> Forall P l ->
  exists s', for_each body l s = Some s' /\ I s'.
Proof.
  intros Hbody. revert s. induction l as [| x l IH]; intros s Hs Hl.
  - now exists s.
  - apply Forall_cons in Hl as [Hx Hl].
    destruct (Hbody s x Hs Hx) as (s1 & Hs1 & HI1).
    cbn. rewrite Hs1. cbn. now apply IH.
Qed.

Lemma for_each_invariant {A S} (I : S -> Prop) (body : S -> A -> option S) l s s' :
  (forall s x s', body s x = Some s' -> I s -> I s') ->
  for_each body l s = Some s' -> I s -> I s'.
Proof.
  intros Hbody. revert s. induction l as [| x l IH]; intros s; cbn.
  - now intros [= <-].
  - destruct (body s x) as [s1 |] eqn:Hs1; [| discriminate]. cbn.
    intros Hrest Hs. apply (IH s1 Hrest). now apply (Hbody s x).
Qed.

Lemma foldl_push {A} (acc l : list A) : foldl (fun acc x => acc ++ [x]) acc l = acc ++ l.
Proof.
  revert acc. induction l as [| x l IH]; intros acc; cbn.
  - now rewrite app_nil_r.
  - now rewrite IH, <- app_assoc.
Qed.

Lemma foldl_bind {A B S} (f : S -> B -> S) (inner : A -> list B) l s :
  foldl (fun s x => foldl f s (inner x)) s l = foldl f s (l ≫= inner).
Proof.
  revert s. induction l as [| x l IH]; intros s; [reflexivity |].
  cbn. now rewrite foldl_app, IH.
Qed.

(** The fragments [Init] sorts and [GetTPlanFragments] returns are those of
    the loops, in their order. *)
Lemma extract_fragments (acc : list TPlanFragment) plans :
  foldl (fun acc plan => foldl (fun acc f => acc ++ [f]) acc (fragments plan)) acc plans
    = acc ++ (plans ≫= fragments).
Proof.
  rewrite (foldl_bind (fun acc f => acc ++ [f]) fragments). apply foldl_push.
Qed.

(** *** [Init], step by step *)

Lemma foldl_ext {A S} (f g : S -> A -> S) l s :
  (forall s x, f s x = g s x) -> foldl f s l = foldl g s l.
Proof.
  intros Hfg. revert s. induction l as [| x l IH]; intros s; [reflexivity |].
  cbn. now rewrite Hfg, IH.
Qed.

Lemma max_node_id_loops request :
  foldl (fun m plan =>
           foldl (fun m f =>
                    foldl (fun m node => Int64.std_max (node_id node) m) m (nodes f))
             m (fragments plan))
    0 (plan_exec_info request)
  = max_node_id request.
Proof.
  unfold max_node_id, all_nodes, all_fragments.
  rewrite (foldl_bind
             (fun m f => foldl (fun m node => Int64.std_max (node_id node) m) m (nodes f))
             fragments).
  rewrite (foldl_bind (fun m node => Int64.std_max (node_id node) m) nodes).
  apply foldl_ext. intros m node. apply Int64Facts.std_max_spec.
Qed.

Lemma for_each_fmap {A B S} (body : S -> B -> option S) (g : A -> B) l s :
  for_each body (g <$> l) s = for_each (fun s x => body s (g x)) l s.
Proof.
  revert s. induction l as [| x l IH]; intros s; [reflexivity |].
  cbn. destruct (body s (g x)); cbn; [apply IH | reflexivity].
Qed.

Lemma node_writes_loops request tables :
  for_each (fun tables plan =>
              for_each (fun tables f =>
                          for_each (record_node f) (imap pair (nodes f)) tables)
                (fragments plan) tables)
    (plan_exec_info request) tables
  = for_each record_write (node_writes request) tables.
Proof.
  unfold node_writes, all_fragments.
  rewrite (for_each_bind
             (fun tables f => for_each (record_node f) (imap pair (nodes f)) tables)
             fragments).
  rewrite <- (for_each_bind record_write (fun f => pair f <$> imap pair (nodes f))).
  generalize (plan_exec_info request ≫= fragments). intros l. revert tables.
  induction l as [| f l IH]; intros tables; [reflexivity |].
  cbn. rewrite for_each_fmap.
  replace (for_each (fun s x => record_write s (f, x)) (imap pair (nodes f)) tables)
    with (for_each (record_node f) (imap pair (nodes f)) tables) by reflexivity.
  destruct (for_each (record_node f) (imap pair (nodes f)) tables); cbn;
    [apply IH | reflexivity].
Qed.

Lemma input_loops table request params :
  for_each (fun params plan => for_each (record_input table) (fragments plan) params)
    (plan_exec_info request) params
  = for_each (record_input table) (all_fragments request) params.
Proof. apply for_each_bind. Qed.

Section InitFacts.

Variable sort_fragments : list TPlanFragment -> list TPlanFragment.
Variable CreateInstanceId : TUniqueId -> Z -> TUniqueId.

Abbreviation Init := (Init sort_fragments CreateInstanceId).
Abbreviation sorted_params := (sorted_params sort_fragments).

(** What a defined [Init] did. *)
Lemma Init_inv this this' :
  Init this = Some this' ->
  exists root params1 tables,
    plan_exec_info (request_ this) !! 0%nat ≫= (fun plan => fragments plan !! 0%nat)
      = Some root
    /\ match stmt_type (request_ this) with
       | QUERY =>
           vec_update (set_is_coord_fragment true) (sorted_params this) (idx root)
             = Some params1
           /\ next_instance_id_ this' = CreateInstanceId (next_instance_id_ this) 1
       | _ => params1 = sorted_params this
              /\ next_instance_id_ this' = next_instance_id_ this
       end
    /\ max_node_id (request_ this) < Int32.max_value
    /\ for_each record_write (node_writes (request_ this))
         (resize (Z.to_nat (max_node_id (request_ this) + 1)) 0
            (plan_node_to_fragment_idx_ this),
          resize (Z.to_nat (max_node_id (request_ this) + 1)) 0
            (plan_node_to_plan_node_idx_ this)) = Some tables
    /\ for_each (record_input tables.1) (all_fragments (request_ this)) params1
       = Some (fragment_exec_params_ this')
    /\ plan_node_to_fragment_idx_ this' = tables.1
    /\ plan_node_to_plan_node_idx_ this' = tables.2
    /\ request_ this' = request_ this.
Proof.
  unfold FragmentPlan.Init. cbv zeta.
  rewrite extract_fragments, app_nil_l, max_node_id_loops.
  fold (all_fragments (request_ this)). fold (sorted_params this).
  destruct (plan_exec_info (request_ this) !! 0%nat) as [plan0 |]; [| discriminate].
  cbn [mbind option_bind].
  destruct (fragments plan0 !! 0%nat) as [root |]; [| discriminate].
  cbn [mbind option_bind].
  destruct (Z.leb_spec Int32.max_value (max_node_id (request_ this))) as [| Hmax].
  { destruct (stmt_type (request_ this)); cbn;
      [destruct (vec_update _ _ _); cbn |]; discriminate. }
  rewrite node_writes_loops.
  assert (Hrest : forall params1 next,
    (tables ← for_each record_write (node_writes (request_ this))
                (resize (Z.to_nat (max_node_id (request_ this) + 1)) 0
                   (plan_node_to_fragment_idx_ this),
                 resize (Z.to_nat (max_node_id (request_ this) + 1)) 0
                   (plan_node_to_plan_node_idx_ this));
     params ← for_each
                 (fun params plan =>
                    for_each (record_input tables.1) (fragments plan) params)
                 (plan_exec_info (request_ this)) params1;
     Some {| request_ := request_ this; fragment_exec_params_ := params;
             plan_node_to_fragment_idx_ := tables.1;
             plan_node_to_plan_node_idx_ := tables.2;
             next_instance_id_ := next |}) = Some this' ->
    exists tables,
      for_each record_write (node_writes (request_ this))
        (resize (Z.to_nat (max_node_id (request_ this) + 1)) 0
           (plan_node_to_fragment_idx_ this),
         resize (Z.to_nat (max_node_id (request_ this) + 1)) 0
           (plan_node_to_plan_node_idx_ this)) = Some tables
      /\ for_each (record_input tables.1) (all_fragments (request_ this)) params1
         = Some (fragment_exec_params_ this')
      /\ plan_node_to_fragment_idx_ this' = tables.1
      /\ plan_node_to_plan_node_idx_ this' = tables.2
      /\ request_ this' = request_ this
      /\ next_instance_id_ this' = next).
  { intros params1 next.
    destruct (for_each record_write _ _) as [tables |]; [| discriminate].
    cbn [mbind option_bind]. rewrite input_loops.
    destruct (for_each (record_input tables.1) _ params1) as [params |] eqn:Hin;
      [| discriminate].
    cbn. intros [= <-]. exists tables. cbn. now rewrite Hin. }
  destruct (stmt_type (request_ this)).
  - destruct (vec_update (set_is_coord_fragment true) (sorted_params this) (idx root))
      as [params1 |] eqn:Hcoord; [| discriminate].
    cbn [mbind option_bind]. intros H.
    destruct (Hrest _ _ H) as (tables & ? & ? & ? & ? & ? & ?).
    exists root, params1, tables. repeat split; assumption.
  - cbn [mbind option_bind]. intros H.
    destruct (Hrest _ _ H) as (tables & ? & ? & ? & ? & ? & ?).
    exists root, (sorted_params this), tables. repeat split; assumption.
Qed.

(** *** The fragment table *)

Lemma vec_update_fmap {A B} (g : A -> B) (f : A -> A) (v v' : list A) i :
  (forall x, g (f x) = g x) -> vec_update f v i = Some v' -> g <$> v' = g <$> v.
Proof.
  intros Hg (x & _ & Hx & ->)%vec_update_Some.
  rewrite list_fmap_insert, Hg. apply list_insert_id.
  now rewrite list_lookup_fmap, Hx.
Qed.

Lemma record_input_fmap {B} (g : FragmentExecParams -> B) table params f params' :
  (forall i p, g (push_input_fragment i p) = g p) ->
  record_input table params f = Some params' -> g <$> params' = g <$> params.
Proof.
  intros Hg. unfold record_input. destruct (stream_sink f) as [dest |].
  - destruct (vec_get table dest) as [dest_idx |]; [| discriminate]. cbn.
    apply vec_update_fmap. intros x. apply Hg.
  - now intros [= <-].
Qed.

Lemma inputs_fmap {B} (g : FragmentExecParams -> B) table l params params' :
  (forall i p, g (push_input_fragment i p) = g p) ->
  for_each (record_input table) l params = Some params' -> g <$> params' = g <$> params.
Proof.
  intros Hg Hloop.
  apply (for_each_invariant (fun p => g <$> p = g <$> params) _ _ _ _
           (fun p f p' Hp Hinv => eq_trans (record_input_fmap g table p f p' Hg Hp) Hinv)
           Hloop eq_refl).
Qed.

(** [Init] changes nothing of an entry but its flag and its input
    fragments. *)
Lemma Init_keeps {B} (g : FragmentExecParams -> B) this this' :
  (forall i p, g (push_input_fragment i p) = g p) ->
  (forall b p, g (set_is_coord_fragment b p) = g p) ->
  Init this = Some this' ->
  g <$> fragment_exec_params_ this' = g <$> sorted_params this.
Proof.
  intros Hpush Hcoord
    (root & params1 & tables & _ & Hmark & _ & _ & Hin & _)%Init_inv.
  rewrite (inputs_fmap g _ _ _ _ Hpush Hin).
  destruct (stmt_type (request_ this)).
  - destruct Hmark as [Hmark _].
    apply (vec_update_fmap g _ _ _ _ (Hcoord true) Hmark).
  - now destruct Hmark as [-> _].
Qed.

Lemma Init_fragments this this' :
  Init this = Some this' ->
  fragment_exec_params_ this = [] ->
  fragment <$> fragment_exec_params_ this'
    = sort_fragments (all_fragments (request_ this)).
Proof.
  intros Hinit Hfresh.
  rewrite (Init_keeps fragment this this' (fun _ _ => eq_refl) (fun _ _ => eq_refl) Hinit).
  unfold FragmentPlanNotions.sorted_params. rewrite Hfresh, app_nil_l.
  rewrite <- list_fmap_compose. apply list_fmap_id.
Qed.

Lemma GetTPlanFragments_all this out :
  GetTPlanFragments this out = all_fragments (request_ this).
Proof. unfold GetTPlanFragments. now rewrite extract_fragments. Qed.

(** What [std::sort] promises. *)
Hypothesis sort_perm : forall l, sort_fragments l ≡ₚ l.
Hypothesis sort_sorted : forall l, StronglySorted idx_le (sort_fragments l).

(** X7. After [Init] on a new schedule, the fragment table holds the
    fragments [GetTPlanFragments] returns, each once, ordered by fragment
    index; whatever the vector given to [GetTPlanFragments] held is
    discarded. *)
Theorem Init_fragment_table this this' out :
  Init this = Some this' ->
  fragment_exec_params_ this = [] ->
  fragment <$> fragment_exec_params_ this' ≡ₚ GetTPlanFragments this' out
  /\ StronglySorted idx_le (fragment <$> fragment_exec_params_ this')
  /\ length (fragment_exec_params_ this') = length (GetTPlanFragments this' out).
Proof.
  intros Hinit Hfresh.
  pose proof (Init_fragments this this' Hinit Hfresh) as Hfr.
  destruct (Init_inv _ _ Hinit) as (_ & _ & _ & _ & _ & _ & _ & _ & _ & _ & Hreq).
  rewrite GetTPlanFragments_all, Hreq, Hfr.
  split; [apply sort_perm |]. split; [apply sort_sorted |].
  rewrite <- (length_fmap fragment), Hfr. now rewrite sort_perm.
Qed.

Lemma sorted_indexes request :
  indexes_are_positions request ->
  idx <$> sort_fragments (all_fragments request)
    = seqZ 0 (Z.of_nat (length (all_fragments request))).
Proof.
  intros Hidx.
  apply (StronglySorted_unique Z.le).
  - apply (StronglySorted_fmap idx idx_le Z.le); [| apply sort_sorted].
    now intros a b.
  - generalize 0 at 1. intros m.
    generalize (length (all_fragments request)). intros n. revert m.
    induction n as [| n IH]; intros m.
    + constructor.
    + rewrite seqZ_cons by lia. constructor.
      * replace (Z.pred (Z.of_nat (S n))) with (Z.of_nat n) by lia. apply IH.
      * apply Forall_forall. intros x Hx. apply elem_of_seqZ in Hx. lia.
  - now rewrite sort_perm.
Qed.

(** The entry at a fragment's index is the entry of that fragment. *)
Lemma table_lookup this this' f :
  Init this = Some this' ->
  fragment_exec_params_ this = [] ->
  indexes_are_positions (request_ this) ->
  f ∈ all_fragments (request_ this) ->
  exists fp, vec_get (fragment_exec_params_ this') (idx f) = Some fp /\ fragment fp = f.
Proof.
  intros Hinit Hfresh Hidx Hf.
  pose proof (Init_fragments this this' Hinit Hfresh) as Hfr.
  pose proof (sorted_indexes _ Hidx) as Hsorted.
  rewrite <- Hfr in Hsorted.
  assert (Hin : f ∈ fragment <$> fragment_exec_params_ this').
  { rewrite Hfr. now rewrite sort_perm. }
  apply list_elem_of_lookup in Hin as [j Hj].
  assert (Hjidx : (idx <$> (fragment <$> fragment_exec_params_ this')) !! j
                  = Some (idx f)) by now rewrite list_lookup_fmap, Hj.
  rewrite Hsorted in Hjidx. apply lookup_seqZ in Hjidx as [Heq _].
  rewrite list_lookup_fmap in Hj.
  destruct (fragment_exec_params_ this' !! j) as [fp |] eqn:Hfp; [| discriminate].
  injection Hj as Hj. exists fp. split; [| exact Hj].
  replace (idx f) with (Z.of_nat j) by lia. now rewrite vec_get_of_nat.
Qed.

(** X8. When the fragment indexes of the request are the positions
    [0 .. n-1], the fragment table of a new schedule is indexed by fragment
    index after [Init]: the entry at [f.idx] is the entry of [f]. *)
Theorem Init_table_indexed_by_idx this this' f :
  Init this = Some this' ->
  fragment_exec_params_ this = [] ->
  indexes_are_positions (request_ this) ->
  f ∈ all_fragments (request_ this) ->
  exists fp, vec_get (fragment_exec_params_ this') (idx f) = Some fp /\ fragment fp = f.
Proof. apply table_lookup. Qed.

(** *** The coordinator fragment *)

Lemma sorted_params_fresh this j fp :
  fragment_exec_params_ this = [] ->
  sorted_params this !! j = Some fp ->
  is_coord_fragment fp = false /\ input_fragments fp = []
  /\ instance_exec_params fp = [] /\ scan_range_assignment fp = ∅.
Proof.
  intros Hfresh. unfold FragmentPlanNotions.sorted_params.
  rewrite Hfresh, app_nil_l, list_lookup_fmap.
  destruct (sort_fragments (all_fragments (request_ this)) !! j); [| discriminate].
  now intros [= <-].
Qed.

(** X9. When [Init] is defined on a schedule whose fragment table was
    empty: for a query, [GetCoordFragment] returns a fragment, exactly the
    entry at the index of that fragment is flagged as the coordinator's, and
    the instance id counter moves to the first instance; for any other
    statement, [GetCoordFragment] returns the null pointer, no entry is
    flagged and the counter stays where it was. *)
Theorem Init_marks_coordinator this this' :
  Init this = Some this' ->
  fragment_exec_params_ this = [] ->
  (stmt_type (request_ this) = QUERY ->
   exists root,
     GetCoordFragment this = Some (Some root)
     /\ (forall j fp, fragment_exec_params_ this' !! j = Some fp ->
                      is_coord_fragment fp = bool_decide (Z.of_nat j = idx root))
     /\ is_Some (vec_get (fragment_exec_params_ this') (idx root))
     /\ next_instance_id_ this' = CreateInstanceId (next_instance_id_ this) 1)
  /\ (stmt_type (request_ this) <> QUERY ->
      GetCoordFragment this = Some None
      /\ (forall j fp, fragment_exec_params_ this' !! j = Some fp ->
                       is_coord_fragment fp = false)
      /\ next_instance_id_ this' = next_instance_id_ this).
Proof.
  intros Hinit Hfresh.
  destruct (Init_inv _ _ Hinit)
    as (root & params1 & tables & Hroot & Hmark & _ & _ & Hin & _).
  pose proof (inputs_fmap is_coord_fragment _ _ _ _ (fun _ _ => eq_refl) Hin) as Hflags.
  pose proof (inputs_fmap fragment _ _ _ _ (fun _ _ => eq_refl) Hin) as Hfrags.
  assert (Hflag : forall j fp, fragment_exec_params_ this' !! j = Some fp ->
            exists fp1, params1 !! j = Some fp1
                        /\ is_coord_fragment fp = is_coord_fragment fp1).
  { intros j fp Hfp.
    assert (H1 : (is_coord_fragment <$> params1) !! j = Some (is_coord_fragment fp))
      by now rewrite <- Hflags, list_lookup_fmap, Hfp.
    rewrite list_lookup_fmap in H1.
    destruct (params1 !! j) as [fp1 |]; [| discriminate].
    injection H1 as H1. now exists fp1. }
  unfold GetCoordFragment.
  destruct (plan_exec_info (request_ this) !! 0%nat) as [plan0 |]; [| discriminate].
  cbn [mbind option_bind] in Hroot |- *. rewrite Hroot. cbn [mbind option_bind].
  destruct (stmt_type (request_ this)).
  - destruct Hmark as [Hmark Hnext].
    split; [intros _ | intros Hne; now destruct Hne].
    exists root. split; [reflexivity |]. split; [| split; [| exact Hnext]].
    + intros j fp Hfp. destruct (Hflag j fp Hfp) as (fp1 & Hfp1 & ->).
      rewrite (vec_update_lookup _ _ _ _ j Hmark) in Hfp1.
      destruct (decide (Z.of_nat j = idx root)) as [Heq | Hne].
      * rewrite bool_decide_eq_true_2 by exact Heq.
        destruct (sorted_params this !! j); [| discriminate].
        now injection Hfp1 as <-.
      * rewrite bool_decide_eq_false_2 by exact Hne.
        now apply (sorted_params_fresh this j fp1).
    + apply vec_update_Some in Hmark as (x & Hlo & Hx & Hp1).
      apply vec_get_in_range. split; [exact Hlo |].
      assert (Hlen : length (fragment_exec_params_ this') = length (sorted_params this)).
      { rewrite <- (length_fmap fragment), Hfrags, length_fmap, Hp1.
        apply length_insert. }
      apply lookup_lt_Some in Hx. lia.
  - destruct Hmark as [-> Hnext].
    split; [discriminate |]. intros _.
    split; [reflexivity |]. split; [| exact Hnext].
    intros j fp Hfp. destruct (Hflag j fp Hfp) as (fp1 & Hfp1 & ->).
    now apply (sorted_params_fresh this j fp1).
Qed.

(** *** The node tables *)

Lemma imap_pair_snd {A} (g : nat -> nat) (l : list A) :
  snd <$> imap (fun i x => (g i, x)) l = l.
Proof.
  revert g. induction l as [| x l IH]; intros g; [reflexivity |].
  cbn. f_equal. apply (IH (g ∘ S)).
Qed.

Lemma node_writes_keys request :
  (fun w => node_id w.2.2) <$> node_writes request = node_id <$> all_nodes request.
Proof.
  unfold node_writes, all_nodes.
  induction (all_fragments request) as [| f l IH]; [reflexivity |].
  cbn. rewrite !fmap_app, IH. f_equal.
  rewrite <- list_fmap_compose.
  rewrite <- (imap_pair_snd (fun i => i) (nodes f)) at 2.
  now rewrite <- list_fmap_compose.
Qed.

Lemma elem_of_node_writes request f i node :
  f ∈ all_fragments request -> nodes f !! i = Some node ->
  (f, (i, node)) ∈ node_writes request.
Proof.
  intros Hf Hnode. unfold node_writes. apply list_elem_of_bind.
  exists f. split; [| exact Hf].
  apply list_elem_of_fmap. exists (i, node). split; [reflexivity |].
  apply elem_of_lookup_imap. now exists i, node.
Qed.

Lemma record_write_inv tables w tables' :
  record_write tables w = Some tables' ->
  vec_update (fun _ => idx w.1) tables.1 (node_id w.2.2) = Some tables'.1
  /\ vec_update (fun _ => Z.of_nat w.2.1) tables.2 (node_id w.2.2) = Some tables'.2.
Proof.
  destruct w as [f [i node]]. unfold record_write, record_node. cbn.
  destruct (vec_update (fun _ => idx f) tables.1 (node_id node)) as [t1 |];
    [| discriminate].
  cbn. destruct (vec_update (fun _ => Z.of_nat i) tables.2 (node_id node)) as [t2 |];
    [| discriminate].
  cbn. now intros [= <-].
Qed.

Lemma vec_update_other {A} (f : A -> A) (v v' : list A) i k :
  vec_update f v i = Some v' -> k <> i -> vec_get v' k = vec_get v k.
Proof.
  intros Hupd Hne. unfold vec_get. destruct (Z.ltb_spec k 0); [reflexivity |].
  rewrite (vec_update_lookup _ _ _ _ (Z.to_nat k) Hupd).
  destruct (decide (Z.of_nat (Z.to_nat k) = i)); [lia | reflexivity].
Qed.

Lemma vec_update_same {A} (f : A -> A) (v v' : list A) i :
  vec_update f v i = Some v' -> exists x, vec_get v i = Some x /\ vec_get v' i = Some (f x).
Proof.
  intros Hupd. pose proof Hupd as (x & Hlo & Hx & _)%vec_update_Some.
  exists x. split; [now apply vec_get_Some |].
  apply vec_get_Some. split; [exact Hlo |].
  rewrite (vec_update_lookup _ _ _ _ (Z.to_nat i) Hupd).
  destruct (decide (Z.of_nat (Z.to_nat i) = i)); [| lia]. now rewrite Hx.
Qed.

(** Writes under other keys leave an entry as it is. *)
Lemma writes_preserve writes tables tables' k :
  for_each record_write writes tables = Some tables' ->
  k ∉ (fun w => node_id w.2.2) <$> writes ->
  vec_get tables'.1 k = vec_get tables.1 k /\ vec_get tables'.2 k = vec_get tables.2 k.
Proof.
  revert tables. induction writes as [| w writes IH]; intros tables; cbn.
  - now intros [= <-].
  - destruct (record_write tables w) as [t1 |] eqn:Hw; [| discriminate]. cbn.
    intros Hrest Hk. apply not_elem_of_cons in Hk as [Hne Hk].
    destruct (IH t1 Hrest Hk) as [-> ->].
    apply record_write_inv in Hw as [H1 H2].
    split; eapply vec_update_other; eauto.
Qed.

(** Under keys that differ from one another, each write is still there
    when the loop ends. *)
Lemma writes_lookup writes tables tables' w :
  for_each record_write writes tables = Some tables' ->
  NoDup ((fun w => node_id w.2.2) <$> writes) ->
  w ∈ writes ->
  vec_get tables'.1 (node_id w.2.2) = Some (idx w.1)
  /\ vec_get tables'.2 (node_id w.2.2) = Some (Z.of_nat w.2.1).
Proof.
  revert tables. induction writes as [| w0 writes IH]; intros tables; cbn.
  - intros _ _ Hin. now apply elem_of_nil in Hin.
  - destruct (record_write tables w0) as [t1 |] eqn:Hw; [| discriminate]. cbn.
    intros Hrest Hnodup Hin. apply NoDup_cons in Hnodup as [Hfresh Hnodup].
    apply elem_of_cons in Hin as [-> | Hin]; [| now apply (IH t1)].
    destruct (writes_preserve _ _ _ _ Hrest Hfresh) as [-> ->].
    apply record_write_inv in Hw as [H1 H2].
    destruct (vec_update_same _ _ _ _ H1) as (? & _ & ->).
    destruct (vec_update_same _ _ _ _ H2) as (? & _ & ->).
    now split.
Qed.

Lemma writes_length writes tables tables' :
  for_each record_write writes tables = Some tables' ->
  length tables'.1 = length tables.1 /\ length tables'.2 = length tables.2.
Proof.
  intros Hloop.
  apply (for_each_invariant
           (fun t => length t.1 = length tables.1 /\ length t.2 = length tables.2)
           record_write writes tables tables'); [| exact Hloop | now split].
  intros t w t' Hw [H1 H2]. apply record_write_inv in Hw as [Hw1 Hw2].
  apply vec_update_length in Hw1, Hw2. split; congruence.
Qed.

(** X10. When the node ids of the request differ from one another, the
    tables [Init] fills give for every node the index of its fragment and
    its position in that fragment; both tables have one entry per id up to
    the largest. *)
Theorem Init_node_tables this this' f i node :
  Init this = Some this' ->
  NoDup (node_id <$> all_nodes (request_ this)) ->
  f ∈ all_fragments (request_ this) ->
  nodes f !! i = Some node ->
  vec_get (plan_node_to_fragment_idx_ this') (node_id node) = Some (idx f)
  /\ vec_get (plan_node_to_plan_node_idx_ this') (node_id node) = Some (Z.of_nat i)
  /\ length (plan_node_to_fragment_idx_ this')
     = Z.to_nat (max_node_id (request_ this) + 1)
  /\ length (plan_node_to_plan_node_idx_ this')
     = Z.to_nat (max_node_id (request_ this) + 1).
Proof.
  intros Hinit Hnodup Hf Hnode.
  destruct (Init_inv _ _ Hinit)
    as (_ & _ & tables & _ & _ & _ & Hwrites & _ & -> & -> & _).
  rewrite <- node_writes_keys in Hnodup.
  destruct (writes_lookup _ _ _ (f, (i, node)) Hwrites Hnodup
              (elem_of_node_writes _ _ _ _ Hf Hnode)) as [H1 H2].
  destruct (writes_length _ _ _ Hwrites) as [L1 L2].
  cbn in L1, L2. rewrite length_resize in L1, L2.
  repeat split; assumption.
Qed.

(** *** The input fragments *)

Lemma record_input_lookup table params f params' (j : nat) :
  record_input table params f = Some params' ->
  input_fragments <$> (params' !! j)
  = (fun acc => acc ++ (if decide (feeds table j f) then [idx f] else []))
      <$> (input_fragments <$> (params !! j)).
Proof.
  unfold record_input. destruct (stream_sink f) as [dest |] eqn:Hsink.
  - destruct (vec_get table dest) as [d |] eqn:Hd; [| discriminate]. cbn.
    intros Hupd. rewrite (vec_update_lookup _ _ _ _ j Hupd).
    destruct (decide (Z.of_nat j = d)) as [<- | Hne];
      destruct (decide (feeds table j f)) as [Hf | Hf].
    + now destruct (params !! j).
    + exfalso. apply Hf. now exists dest.
    + exfalso. destruct Hf as (dest' & Hsink' & Hd').
      rewrite Hsink in Hsink'. injection Hsink' as <-. congruence.
    + destruct (params !! j); cbn; [now rewrite app_nil_r | reflexivity].
  - intros [= <-]. destruct (decide (feeds table j f)) as [Hf | Hf].
    + destruct Hf as (dest' & Hsink' & _). congruence.
    + destruct (params !! j); cbn; [now rewrite app_nil_r | reflexivity].
Qed.

(** The loop appends to entry [j] the indexes of the fragments that feed
    it, in the order it visits them. *)
Lemma inputs_collect table l params params' (j : nat) :
  for_each (record_input table) l params = Some params' ->
  input_fragments <$> (params' !! j)
  = (fun acc => acc ++ (idx <$> filter (feeds table j) l))
      <$> (input_fragments <$> (params !! j)).
Proof.
  revert params. induction l as [| f l IH]; intros params; cbn [for_each].
  - intros [= <-]. destruct (params !! j); cbn; [now rewrite app_nil_r | reflexivity].
  - destruct (record_input table params f) as [p1 |] eqn:Hf; [| discriminate].
    cbn [mbind option_bind].
    intros Hrest. rewrite (IH p1 Hrest), (record_input_lookup _ _ _ _ j Hf).
    rewrite filter_cons.
    destruct (params !! j); cbn; [| reflexivity].
    destruct (decide (feeds table j f)); cbn.
    + now rewrite <- app_assoc.
    + now rewrite app_nil_r.
Qed.

(** Marking the coordinator changes nothing but the flag. *)
Lemma marked_fmap {B} (g : FragmentExecParams -> B) this root params1 (next : TUniqueId) :
  (forall b p, g (set_is_coord_fragment b p) = g p) ->
  match stmt_type (request_ this) with
  | QUERY =>
      vec_update (set_is_coord_fragment true) (sorted_params this) (idx root)
        = Some params1
      /\ next = CreateInstanceId (next_instance_id_ this) 1
  | _ => params1 = sorted_params this /\ next = next_instance_id_ this
  end ->
  g <$> params1 = g <$> sorted_params this.
Proof.
  intros Hg Hmark. destruct (stmt_type (request_ this)).
  - destruct Hmark as [Hmark _]. apply (vec_update_fmap g _ _ _ _ (Hg true) Hmark).
  - now destruct Hmark as [-> _].
Qed.

(** X11. After [Init] on a new schedule, the input fragments of the entry
    at position [j] are the indexes of the fragments whose stream sink feeds
    a node that the node table gives to [j], in the order the request lists
    them; a fragment without a stream sink is the input of none. *)
Theorem Init_input_fragments this this' (j : nat) fp :
  Init this = Some this' ->
  fragment_exec_params_ this = [] ->
  fragment_exec_params_ this' !! j = Some fp ->
  input_fragments fp
  = idx <$> filter (feeds (plan_node_to_fragment_idx_ this') j)
              (all_fragments (request_ this)).
Proof.
  intros Hinit Hfresh Hfp.
  destruct (Init_inv _ _ Hinit)
    as (root & params1 & tables & _ & Hmark & _ & _ & Hin & -> & _).
  pose proof (inputs_collect _ _ _ _ j Hin) as Hcollect.
  rewrite Hfp in Hcollect. cbn in Hcollect.
  pose proof (marked_fmap input_fragments this root params1 _ (fun _ _ => eq_refl) Hmark)
    as Hsame.
  assert (Hj : input_fragments <$> (params1 !! j)
               = input_fragments <$> (sorted_params this !! j))
    by now rewrite <- !list_lookup_fmap, Hsame.
  rewrite Hj in Hcollect.
  destruct (sorted_params this !! j) as [fp0 |] eqn:Hfp0; [| discriminate].
  destruct (sorted_params_fresh this j fp0 Hfresh Hfp0) as (_ & Hnil & _).
  cbn in Hcollect. rewrite Hnil in Hcollect. now injection Hcollect.
Qed.

(** *** [Init] is defined on a well-formed request *)

Lemma Init_intro this root params1 tables params next :
  plan_exec_info (request_ this) !! 0%nat ≫= (fun plan => fragments plan !! 0%nat)
    = Some root ->
  match stmt_type (request_ this) with
  | QUERY =>
      vec_update (set_is_coord_fragment true) (sorted_params this) (idx root)
        = Some params1
      /\ next = CreateInstanceId (next_instance_id_ this) 1
  | _ => params1 = sorted_params this /\ next = next_instance_id_ this
  end ->
  max_node_id (request_ this) < Int32.max_value ->
  for_each record_write (node_writes (request_ this))
    (resize (Z.to_nat (max_node_id (request_ this) + 1)) 0
       (plan_node_to_fragment_idx_ this),
     resize (Z.to_nat (max_node_id (request_ this) + 1)) 0
       (plan_node_to_plan_node_idx_ this)) = Some tables ->
  for_each (record_input tables.1) (all_fragments (request_ this)) params1
    = Some params ->
  Init this = Some {| request_ := request_ this; fragment_exec_params_ := params;
                      plan_node_to_fragment_idx_ := tables.1;
                      plan_node_to_plan_node_idx_ := tables.2;
                      next_instance_id_ := next |}.
Proof.
  intros Hroot Hmark Hmax Hwrites Hin.
  unfold FragmentPlan.Init. cbv zeta.
  rewrite extract_fragments, app_nil_l, max_node_id_loops.
  fold (all_fragments (request_ this)). fold (sorted_params this).
  destruct (plan_exec_info (request_ this) !! 0%nat) as [plan0 |]; [| discriminate].
  cbn [mbind option_bind] in Hroot |- *. rewrite Hroot. cbn [mbind option_bind].
  destruct (Z.leb_spec Int32.max_value (max_node_id (request_ this))); [lia |].
  rewrite node_writes_loops, Hwrites.
  destruct (stmt_type (request_ this)).
  - destruct Hmark as [-> ->]. cbn [mbind option_bind].
    now rewrite input_loops, Hin.
  - destruct Hmark as [<- ->]. cbn [mbind option_bind].
    now rewrite input_loops, Hin.
Qed.

Lemma root_in_all request root :
  plan_exec_info request !! 0%nat ≫= (fun plan => fragments plan !! 0%nat) = Some root ->
  root ∈ all_fragments request.
Proof.
  destruct (plan_exec_info request !! 0%nat) as [plan0 |] eqn:Hplan; [| discriminate].
  cbn. intros Hroot. apply list_elem_of_bind. exists plan0.
  split; eapply list_elem_of_lookup_2; eauto.
Qed.

Lemma idx_in_range request f :
  indexes_are_positions request -> f ∈ all_fragments request ->
  0 <= idx f < Z.of_nat (length (all_fragments request)).
Proof.
  intros Hidx Hf.
  assert (Hin : idx f ∈ idx <$> all_fragments request).
  { apply list_elem_of_fmap. now exists f. }
  unfold indexes_are_positions in Hidx.
  rewrite Hidx in Hin. apply elem_of_seqZ in Hin. lia.
Qed.

Lemma length_sorted_params this :
  fragment_exec_params_ this = [] ->
  length (sorted_params this) = length (all_fragments (request_ this)).
Proof.
  intros Hfresh. unfold FragmentPlanNotions.sorted_params.
  now rewrite Hfresh, app_nil_l, length_fmap, sort_perm.
Qed.

Lemma foldl_max_ge (l : list TPlanNode) m :
  m <= foldl (fun m node => Z.max (node_id node) m) m l
  /\ forall node, node ∈ l ->
       node_id node <= foldl (fun m node => Z.max (node_id node) m) m l.
Proof.
  revert m. induction l as [| x l IH]; intros m; cbn.
  - split; [lia |]. intros node Hin. now apply elem_of_nil in Hin.
  - destruct (IH (Z.max (node_id x) m)) as [Hm Hl]. split; [lia |].
    intros node [-> | Hin]%elem_of_cons; [lia | now apply Hl].
Qed.

Lemma foldl_max_lt (l : list TPlanNode) m M :
  m < M -> Forall (fun node => node_id node < M) l ->
  foldl (fun m node => Z.max (node_id node) m) m l < M.
Proof.
  revert m. induction l as [| x l IH]; intros m Hm Hl; cbn; [exact Hm |].
  apply Forall_cons in Hl as [Hx Hl]. apply IH; [lia | exact Hl].
Qed.

Lemma elem_of_node_writes_inv request f i node :
  (f, (i, node)) ∈ node_writes request ->
  f ∈ all_fragments request /\ nodes f !! i = Some node.
Proof.
  unfold node_writes. intros (f' & Hw & Hf')%list_elem_of_bind.
  apply list_elem_of_fmap in Hw as ([i' node'] & [= -> -> ->] & Hentry).
  apply elem_of_lookup_imap in Hentry as (i'' & node'' & [= -> ->] & Hnode).
  now split.
Qed.

Lemma node_in_all request f i node :
  f ∈ all_fragments request -> nodes f !! i = Some node -> node ∈ all_nodes request.
Proof.
  intros Hf Hnode. apply list_elem_of_bind. exists f.
  split; [eapply list_elem_of_lookup_2; eauto | exact Hf].
Qed.

(** The node tables of a new schedule: the writes are in range, and every
    entry of the fragment index table is a fragment index. *)
Lemma writes_defined request :
  well_formed request ->
  exists tables,
    for_each record_write (node_writes request)
      (resize (Z.to_nat (max_node_id request + 1)) 0 [],
       resize (Z.to_nat (max_node_id request + 1)) 0 []) = Some tables
    /\ Z.of_nat (length tables.1) = max_node_id request + 1
    /\ Forall (fun v => 0 <= v < Z.of_nat (length (all_fragments request))) tables.1.
Proof.
  intros ((root & Hroot) & Hidx & Hnodes & _).
  pose proof (idx_in_range _ _ Hidx (root_in_all _ _ Hroot)) as Hn.
  destruct (foldl_max_ge (all_nodes request) 0) as [Hmax0 Hmax].
  fold (max_node_id request) in Hmax0, Hmax.
  destruct (for_each_defined
              (fun t : list Z * list Z =>
                 Z.of_nat (length t.1) = max_node_id request + 1
                 /\ Z.of_nat (length t.2) = max_node_id request + 1
                 /\ Forall (fun v => 0 <= v < Z.of_nat (length (all_fragments request)))
                      t.1)
              (fun w : TPlanFragment * (nat * TPlanNode) =>
                 0 <= node_id w.2.2 <= max_node_id request
                 /\ 0 <= idx w.1 < Z.of_nat (length (all_fragments request)))
              record_write (node_writes request)
              (resize (Z.to_nat (max_node_id request + 1)) 0 [],
               resize (Z.to_nat (max_node_id request + 1)) 0 []))
    as (tables & Htables & H1 & _ & HF).
  - intros t [f [i node]] (L1 & L2 & HF) [Hid Hf]. cbn in Hid, Hf.
    unfold record_write, record_node. cbn.
    destruct (vec_update_in_range (fun _ => idx f) t.1 (node_id node)) as [t1 Ht1];
      [lia |].
    destruct (vec_update_in_range (fun _ => Z.of_nat i) t.2 (node_id node)) as [t2 Ht2];
      [lia |].
    rewrite Ht1. cbn. rewrite Ht2. cbn. eexists. split; [reflexivity |]. cbn.
    rewrite (vec_update_length _ _ _ _ Ht1), (vec_update_length _ _ _ _ Ht2).
    split; [exact L1 |]. split; [exact L2 |].
    apply vec_update_Some in Ht1 as (x & _ & _ & ->).
    now apply Forall_insert.
  - cbn. rewrite !length_resize. split; [lia |]. split; [lia |].
    rewrite resize_nil. apply Forall_replicate. lia.
  - apply Forall_forall. intros [f [i node]] (Hf & Hnode)%elem_of_node_writes_inv.
    cbn. pose proof (node_in_all _ _ _ _ Hf Hnode) as Hall.
    split; [| now apply idx_in_range].
    split; [| now apply Hmax].
    rewrite Forall_forall in Hnodes. apply (Hnodes node Hall).
  - now exists tables.
Qed.

Lemma inputs_defined request table params :
  well_formed request ->
  Z.of_nat (length table) = max_node_id request + 1 ->
  Forall (fun v => 0 <= v < Z.of_nat (length (all_fragments request))) table ->
  length params = length (all_fragments request) ->
  exists params',
    for_each (record_input table) (all_fragments request) params = Some params'.
Proof.
  intros (_ & _ & Hnodes & Hsinks) Hlen Htable Hparams.
  destruct (foldl_max_ge (all_nodes request) 0) as [_ Hmax].
  fold (max_node_id request) in Hmax.
  destruct (for_each_defined
              (fun p : list FragmentExecParams =>
                 length p = length (all_fragments request))
              (fun f => forall dest, stream_sink f = Some dest ->
                                     0 <= dest <= max_node_id request)
              (record_input table) (all_fragments request) params)
    as (params' & Hparams' & _).
  - intros p f Hp Hf. unfold record_input.
    destruct (stream_sink f) as [dest |]; [| now exists p].
    specialize (Hf dest eq_refl).
    destruct (vec_get_in_range table dest) as [d Hd]; [lia |].
    rewrite Hd. cbn.
    assert (Hrange : 0 <= d < Z.of_nat (length (all_fragments request))).
    { apply vec_get_Some in Hd as [_ Hd]. apply list_elem_of_lookup_2 in Hd.
      rewrite Forall_forall in Htable. now apply Htable. }
    destruct (vec_update_in_range (push_input_fragment (idx f)) p d) as [p' Hp'];
      [lia |].
    exists p'. split; [exact Hp' |].
    now rewrite (vec_update_length _ _ _ _ Hp').
  - exact Hparams.
  - rewrite Forall_forall in Hsinks. rewrite Forall_forall in Hnodes.
    apply Forall_forall.
    intros f Hf dest Hdest.
    destruct (proj1 (list_elem_of_fmap _ _ _) (Hsinks f Hf dest Hdest))
      as (node & -> & Hnode).
    split; [apply (Hnodes node Hnode) | now apply Hmax].
  - now exists params'.
Qed.

(** X12. On a well-formed request, [Init] of a new schedule is defined: no
    index it uses is out of range, and [max_node_id + 1] is an [int]. *)
Theorem Init_defined query_id request :
  well_formed request ->
  is_Some (Init (new_schedule query_id request)).
Proof.
  intros Hwf. pose proof Hwf as ((root & Hroot) & Hidx & Hnodes & _).
  set (this := new_schedule query_id request).
  pose proof (idx_in_range _ _ Hidx (root_in_all _ _ Hroot)) as Hrange.
  pose proof (length_sorted_params this eq_refl) as Hlen.
  assert (Hmark : exists params1 next,
    match stmt_type (request_ this) with
    | QUERY =>
        vec_update (set_is_coord_fragment true) (sorted_params this) (idx root)
          = Some params1
        /\ next = CreateInstanceId (next_instance_id_ this) 1
    | _ => params1 = sorted_params this /\ next = next_instance_id_ this
    end /\ length params1 = length (all_fragments request)).
  { destruct (stmt_type (request_ this)).
    - destruct (vec_update_in_range (set_is_coord_fragment true) (sorted_params this)
                  (idx root)) as [params1 Hp1]; [rewrite Hlen; exact Hrange |].
      exists params1, (CreateInstanceId (next_instance_id_ this) 1).
      split; [now split |].
      now rewrite (vec_update_length _ _ _ _ Hp1).
    - exists (sorted_params this), (next_instance_id_ this). now split. }
  destruct Hmark as (params1 & next & Hmark & Hlen1).
  destruct (writes_defined request Hwf) as (tables & Hwrites & Htl & HF).
  destruct (inputs_defined request tables.1 params1 Hwf Htl HF Hlen1) as [params Hin].
  assert (Hmax : max_node_id request < Int32.max_value).
  { apply foldl_max_lt; [reflexivity |].
    eapply Forall_impl; [exact Hnodes |]. cbn. intros; lia. }
  rewrite (Init_intro this root params1 tables params next Hroot Hmark Hmax Hwrites Hin).
  eauto.
Qed.

(** *** [Validate] after [Init] *)

Lemma to_signed_small n : 0 <= n <= Int32.max_value -> Int32.to_signed n = n.
Proof.
  unfold Int32.to_signed, Int32.max_value, Int32.modulus. intros Hn. cbv zeta.
  rewrite Z.mod_small by lia. destruct (Z.ltb_spec n (2 ^ 31)); lia.
Qed.

(** X13. What [Init] builds for a new schedule passes [Validate], when the
    fragment indexes of the request are the positions [0 .. n-1] and the
    number of fragments is an [int]: every fragment has its entry at its
    index, there is one entry per fragment, and no scan range is assigned
    yet. *)
Theorem Init_validates this this' :
  Init this = Some this' ->
  fragment_exec_params_ this = [] ->
  indexes_are_positions (request_ this) ->
  Z.of_nat (length (all_fragments (request_ this))) <= Int32.max_value ->
  Validate this' = true.
Proof.
  intros Hinit Hfresh Hidx Hn.
  pose proof (Init_inv _ _ Hinit) as (_ & _ & _ & _ & _ & _ & _ & _ & _ & _ & Hreq).
  unfold Validate. cbv zeta. rewrite Hreq.
  rewrite !andb_true_iff. split; [split |].
  - apply forallb_forall. intros f Hf%list_elem_of_In.
    destruct (table_lookup this this' f Hinit Hfresh Hidx Hf) as (fp & -> & ->).
    apply Z.eqb_refl.
  - rewrite to_signed_small by lia. apply Z.eqb_eq. f_equal.
    rewrite <- (length_fmap fragment), (Init_fragments this this' Hinit Hfresh).
    now rewrite sort_perm.
  - apply forallb_forall. intros fp Hfp%list_elem_of_In.
    pose proof (Init_keeps scan_range_assignment this this'
                  (fun _ _ => eq_refl) (fun _ _ => eq_refl) Hinit) as Hsame.
    apply list_elem_of_lookup in Hfp as [j Hj].
    assert (Hsra : scan_range_assignment <$> (sorted_params this !! j)
                   = Some (scan_range_assignment fp))
      by now rewrite <- list_lookup_fmap, <- Hsame, list_lookup_fmap, Hj.
    destruct (sorted_params this !! j) as [fp0 |] eqn:Hfp0; [| discriminate].
    destruct (sorted_params_fresh this j fp0 Hfresh Hfp0) as (_ & _ & _ & Hempty).
    injection Hsra as <-. rewrite Hempty. now rewrite map_to_list_empty.
Qed.

End InitFacts.

(** *** Instance ids *)

Lemma GetNextInstanceId_Some this :
  lo (next_instance_id_ this) < Int64.max_value ->
  GetNextInstanceId this
  = Some (next_instance_id_ this,
          set_next_instance_id
            {| hi := hi (next_instance_id_ this); lo := lo (next_instance_id_ this) + 1 |}
            this).
Proof.
  intros Hlo. unfold GetNextInstanceId. cbv zeta.
  destruct (Z.ltb_spec (lo (next_instance_id_ this)) Int64.max_value); [reflexivity | lia].
Qed.

(** X14. As long as the counter does not pass the largest [int64_t], [n]
    calls of [GetNextInstanceId] hand out [n] ids that differ from one
    another: they share the high half of the counter, and their low halves
    count up from it. The counter ends [n] further. *)
Theorem instance_ids_distinct (n : nat) this :
  lo (next_instance_id_ this) + Z.of_nat n <= Int64.max_value ->
  exists ids this',
    take_instance_ids n this = Some (ids, this')
    /\ NoDup ids
    /\ lo <$> ids = seqZ (lo (next_instance_id_ this)) (Z.of_nat n)
    /\ hi <$> ids = replicate n (hi (next_instance_id_ this))
    /\ next_instance_id_ this'
       = {| hi := hi (next_instance_id_ this);
            lo := lo (next_instance_id_ this) + Z.of_nat n |}.
Proof.
  assert (Hmain : forall (n : nat) this,
    lo (next_instance_id_ this) + Z.of_nat n <= Int64.max_value ->
    exists ids this',
      take_instance_ids n this = Some (ids, this')
      /\ lo <$> ids = seqZ (lo (next_instance_id_ this)) (Z.of_nat n)
      /\ hi <$> ids = replicate n (hi (next_instance_id_ this))
      /\ next_instance_id_ this'
         = {| hi := hi (next_instance_id_ this);
              lo := lo (next_instance_id_ this) + Z.of_nat n |}).
  { clear n this. induction n as [| n IH]; intros this Hn.
    - exists [], this. cbn. repeat split.
      rewrite Z.add_0_r. now destruct (next_instance_id_ this).
    - cbn [take_instance_ids]. rewrite GetNextInstanceId_Some by lia.
      cbn [mbind option_bind].
      destruct (IH (set_next_instance_id
                      {| hi := hi (next_instance_id_ this);
                         lo := lo (next_instance_id_ this) + 1 |} this))
        as (ids & this' & -> & Hlo & Hhi & Hnext); [cbn; lia |].
      cbn in Hlo, Hhi, Hnext. cbn [mbind option_bind].
      exists (next_instance_id_ this :: ids), this'.
      split; [reflexivity |]. split; [| split].
      + rewrite fmap_cons, Hlo, (seqZ_cons _ (Z.of_nat (S n))) by lia.
        do 2 f_equal; lia.
      + now rewrite fmap_cons, Hhi.
      + rewrite Hnext. f_equal. lia. }
  intros Hn. destruct (Hmain n this Hn) as (ids & this' & Htake & Hlo & Hhi & Hnext).
  exists ids, this'. repeat split; try assumption.
  apply (NoDup_fmap_1 lo). rewrite Hlo. apply NoDup_seqZ.
Qed.

(** *** Counting instances and scan ranges *)

Lemma to_signed_add_l a b :
  Int32.to_signed (Int32.to_signed a + b) = Int32.to_signed (a + b).
Proof.
  assert (Hmod : (Int32.to_signed a + b) mod Int32.modulus = (a + b) mod Int32.modulus).
  { unfold Int32.to_signed at 1. cbv zeta.
    destruct (a mod Int32.modulus <? 2 ^ 31).
    - now rewrite Z.add_mod_idemp_l by (unfold Int32.modulus; lia).
    - replace (a mod Int32.modulus - Int32.modulus + b)
        with (a mod Int32.modulus + b + -1 * Int32.modulus) by lia.
      rewrite Z.mod_add by (unfold Int32.modulus; lia).
      now rewrite Z.add_mod_idemp_l by (unfold Int32.modulus; lia). }
  unfold Int32.to_signed at 1 3. cbv zeta. now rewrite Hmod.
Qed.

(** An [int] total of sizes is their sum, as an [int]. *)
Lemma foldl_add_size (counts : list nat) :
  foldl Int32.add_size 0 counts = Int32.to_signed (Z.of_nat (sum_list counts)).
Proof.
  change 0 with (Int32.to_signed 0) at 1.
  change (Z.of_nat (sum_list counts)) with (0 + Z.of_nat (sum_list counts)).
  generalize 0. induction counts as [| c counts IH]; intros acc; cbn [foldl].
  - cbn. now rewrite Z.add_0_r.
  - unfold Int32.add_size at 2. rewrite to_signed_add_l, IH. f_equal.
    cbn [sum_list_with]. unfold id. lia.
Qed.

(** X15. [GetNumFragmentInstances] is the number of instances of all
    fragments, as an [int]; it is that number itself when it is at most the
    largest [int]. *)
Theorem num_fragment_instances this :
  GetNumFragmentInstances this
  = Int32.to_signed
      (Z.of_nat (length (all_instances (fragment_exec_params_ this))))
  /\ (Z.of_nat (length (all_instances (fragment_exec_params_ this))) <= Int32.max_value ->
      GetNumFragmentInstances this
      = Z.of_nat (length (all_instances (fragment_exec_params_ this)))).
Proof.
  assert (Hnum : GetNumFragmentInstances this
                 = Int32.to_signed
                     (Z.of_nat (length (all_instances (fragment_exec_params_ this))))).
  { unfold GetNumFragmentInstances, all_instances.
    rewrite <- (foldl_fmap Int32.add_size 0 (fragment_exec_params_ this)
                  (fun p => length (instance_exec_params p))).
    rewrite foldl_add_size. do 2 f_equal.
    induction (fragment_exec_params_ this) as [| p l IH]; [reflexivity |].
    cbn. rewrite length_app. unfold id. now f_equal. }
  split; [exact Hnum |].
  intros Hfit. rewrite Hnum. unfold Int32.to_signed, Int32.modulus, Int32.max_value in *.
  cbv zeta. rewrite Z.mod_small by lia.
  destruct (Z.ltb_spec (Z.of_nat (length (all_instances (fragment_exec_params_ this))))
              (2 ^ 31)); lia.
Qed.

Lemma count_instance_lookup count_map ip h node :
  count_instance count_map ip !! h ≫= (fun node_map => node_map !! node)
  = count_step h node (count_map !! h ≫= (fun node_map => node_map !! node)) ip.
Proof.
  unfold count_instance, count_step. cbv zeta.
  destruct (decide (host ip = h)) as [<- | Hne];
    [| now rewrite lookup_insert_ne by exact Hne].
  rewrite lookup_insert_eq. cbn [mbind option_bind].
  assert (Hstart : default ∅ (count_map !! host ip) !! node
                   = count_map !! host ip ≫= (fun node_map => node_map !! node)).
  { destruct (count_map !! host ip); [reflexivity | apply lookup_empty]. }
  rewrite <- Hstart. generalize (default ∅ (count_map !! host ip)). intros node_map.
  apply (map_fold_weak_ind
           (fun r m => r !! node
                       = match m !! node with
                         | Some ranges =>
                             Some (Int32.add_size (default 0 (node_map !! node))
                                     (length ranges))
                         | None => node_map !! node
                         end)).
  - now rewrite lookup_empty.
  - intros i x m r Hi IH. destruct (decide (i = node)) as [-> | Hne].
    + rewrite !lookup_insert_eq. rewrite Hi in IH. now rewrite IH.
    + now rewrite !lookup_insert_ne by exact Hne.
Qed.

Lemma count_map_lookup ips count_map h node :
  foldl count_instance count_map ips !! h ≫= (fun node_map => node_map !! node)
  = foldl (count_step h node)
      (count_map !! h ≫= (fun node_map => node_map !! node)) ips.
Proof.
  revert count_map. induction ips as [| ip ips IH]; intros count_map; [reflexivity |].
  cbn [foldl]. now rewrite IH, count_instance_lookup.
Qed.

Lemma count_steps ips h node count :
  foldl (count_step h node) count ips
  = match scan_range_counts ips h node with
    | [] => count
    | counts => Some (foldl Int32.add_size (default 0 count) counts)
    end.
Proof.
  revert count. induction ips as [| ip ips IH]; intros count; [reflexivity |].
  cbn [foldl]. rewrite IH. unfold scan_range_counts. cbn [mbind list_bind].
  fold (scan_range_counts ips h node). unfold count_step.
  destruct (decide (host ip = h)); [| reflexivity].
  destruct (per_node_scan_ranges ip !! node) as [ranges |]; [| reflexivity].
  cbn. now destruct (scan_range_counts ips h node).
Qed.

Lemma count_map_hosts ips count_map h :
  is_Some (foldl count_instance count_map ips !! h) ->
  is_Some (count_map !! h) \/ h ∈ host <$> ips.
Proof.
  revert count_map. induction ips as [| ip ips IH]; intros count_map; [now left |].
  cbn [foldl]. intros [Hcm | Hin]%IH.
  - unfold count_instance in Hcm. cbv zeta in Hcm.
    destruct (decide (host ip = h)) as [<- | Hne].
    + right. rewrite fmap_cons. apply elem_of_cons. now left.
    + left. now rewrite lookup_insert_ne in Hcm by exact Hne.
  - right. rewrite fmap_cons. apply elem_of_cons. now right.
Qed.

Lemma count_map_of_instances params :
  count_map_of params = foldl count_instance ∅ (all_instances params).
Proof. apply (foldl_bind count_instance instance_exec_params). Qed.

(** X16. A schedule that passes [Validate] assigns scan ranges only to
    hosts that run an instance; and for every node of an assignment, some
    instance on the host has scan ranges of that node, and the scan ranges
    of the instances on the host for it are, counted as an [int], as many
    as the assignment has. *)
Theorem Validate_assignments this fp h assignment :
  Validate this = true ->
  fp ∈ fragment_exec_params_ this ->
  scan_range_assignment fp !! h = Some assignment ->
  h ∈ host <$> all_instances (fragment_exec_params_ this)
  /\ forall node ranges,
       assignment !! node = Some ranges ->
       scan_range_counts (all_instances (fragment_exec_params_ this)) h node <> []
       /\ Int32.to_signed
            (Z.of_nat
               (sum_list
                  (scan_range_counts (all_instances (fragment_exec_params_ this)) h node)))
          = Z.of_nat (length ranges).
Proof.
  unfold Validate. cbv zeta. rewrite !andb_true_iff. intros [_ Hassign] Hfp Hh.
  rewrite forallb_forall in Hassign.
  specialize (Hassign fp (proj1 (list_elem_of_In _ _) Hfp)).
  rewrite forallb_forall in Hassign.
  specialize (Hassign (h, assignment)
                (proj1 (list_elem_of_In _ _)
                   (proj2 (elem_of_map_to_list _ _ _) Hh))).
  cbn beta iota in Hassign.
  destruct (count_map_of (fragment_exec_params_ this) !! h) as [node_map |] eqn:Hcm;
    [| discriminate].
  split.
  - rewrite count_map_of_instances in Hcm.
    destruct (count_map_hosts _ ∅ h (mk_is_Some _ _ Hcm)) as [[x Hx] | Hin];
      [now rewrite lookup_empty in Hx | exact Hin].
  - intros node ranges Hnode. rewrite forallb_forall in Hassign.
    specialize (Hassign (node, ranges)
                  (proj1 (list_elem_of_In _ _)
                     (proj2 (elem_of_map_to_list _ _ _) Hnode))).
    cbn beta iota in Hassign.
    destruct (node_map !! node) as [count |] eqn:Hcount; [| discriminate].
    apply Z.eqb_eq in Hassign. subst count.
    assert (Hlookup : count_map_of (fragment_exec_params_ this) !! h
                        ≫= (fun node_map => node_map !! node)
                      = Some (Z.of_nat (length ranges)))
      by now rewrite Hcm.
    rewrite count_map_of_instances, count_map_lookup, lookup_empty, count_steps
      in Hlookup.
    cbn [mbind option_bind default] in Hlookup.
    destruct (scan_range_counts (all_instances (fragment_exec_params_ this)) h node)
      as [| c counts] eqn:Hcounts; [discriminate |].
    split; [discriminate |].
    injection Hlookup as Hlookup. now rewrite <- foldl_add_size.
Qed.

(** *** The example *)

Lemma idx_le_transitive : Transitive idx_le.
Proof. intros a b c. unfold idx_le. lia. Qed.

Lemma idx_le_total : Total idx_le.
Proof. intros a b. unfold idx_le. lia. Qed.

Lemma example_sort_perm l : example_sort l ≡ₚ l.
Proof. apply merge_sort_Permutation. Qed.

Lemma example_sort_sorted l : StronglySorted idx_le (example_sort l).
Proof.
  apply (@StronglySorted_merge_sort _ idx_le _ idx_le_transitive idx_le_total).
Qed.

Lemma example_init_defined :
  FragmentPlan.Init example_sort example_create_instance_id
    (new_schedule example_query_id example_request)
  = Some example_initialised.
Proof. vm_compute. reflexivity. Qed.

Lemma example_positions : indexes_are_positions example_request.
Proof. apply (bool_decide_unpack _). vm_compute. reflexivity. Qed.

Lemma example_nodes_distinct : NoDup (node_id <$> all_nodes example_request).
Proof. apply (bool_decide_unpack _). vm_compute. reflexivity. Qed.

Lemma example_well_formed : well_formed example_request.
Proof.
  split; [now eexists |]. split; [exact example_positions |]. split.
  - repeat constructor; cbn; unfold Int32.max_value; lia.
  - repeat first [apply Forall_nil_2 | apply Forall_cons_2];
      intros dest Hdest; cbn in Hdest; try discriminate;
      injection Hdest as <-; apply (bool_decide_unpack _); vm_compute; reflexivity.
Qed.

Example example_init_result :
  (fun this =>
     (idx ∘ fragment <$> fragment_exec_params_ this,
      is_coord_fragment <$> fragment_exec_params_ this,
      input_fragments <$> fragment_exec_params_ this,
      plan_node_to_fragment_idx_ this, plan_node_to_plan_node_idx_ this,
      next_instance_id_ this, Validate this)) <$> example_init
  = Some ([0; 1; 2], [true; false; false], [[1]; [2]; []],
          [0; 1; 1; 2], [0; 0; 1; 0], {| hi := 7; lo := 17 |}, true).
Proof. vm_compute. reflexivity. Qed.

(** The example query: its fragment table, whatever the vector given to
    [GetTPlanFragments] held. *)
Lemma Init_fragment_table_witness :
  fragment <$> fragment_exec_params_ example_initialised
    ≡ₚ GetTPlanFragments example_initialised [example_scan_fragment]
  /\ StronglySorted idx_le (fragment <$> fragment_exec_params_ example_initialised)
  /\ length (fragment_exec_params_ example_initialised)
     = length (GetTPlanFragments example_initialised [example_scan_fragment]).
Proof.
  apply (Init_fragment_table example_sort example_create_instance_id
           example_sort_perm example_sort_sorted
           (new_schedule example_query_id example_request)).
  - exact example_init_defined.
  - reflexivity.
Defined.

(** Fragment 2 of the example, which the request lists second. *)
Lemma Init_table_indexed_by_idx_witness :
  exists fp,
    vec_get (fragment_exec_params_ example_initialised) 2 = Some fp
    /\ fragment fp
       = {| idx := 2; nodes := [ {| node_id := 3 |} ]; stream_sink := Some 2 |}.
Proof.
  apply (Init_table_indexed_by_idx example_sort example_create_instance_id
           example_sort_perm example_sort_sorted
           (new_schedule example_query_id example_request) example_initialised
           {| idx := 2; nodes := [ {| node_id := 3 |} ]; stream_sink := Some 2 |}).
  - exact example_init_defined.
  - reflexivity.
  - exact example_positions.
  - apply list_elem_of_In. vm_compute. auto.
Defined.

(** The example is a query: the entry of its root, fragment 0, is
    flagged. *)
Lemma Init_marks_coordinator_witness :
  exists root,
    GetCoordFragment (new_schedule example_query_id example_request) = Some (Some root)
    /\ (forall j fp, fragment_exec_params_ example_initialised !! j = Some fp ->
                     is_coord_fragment fp = bool_decide (Z.of_nat j = idx root))
    /\ is_Some (vec_get (fragment_exec_params_ example_initialised) (idx root))
    /\ next_instance_id_ example_initialised
       = example_create_instance_id example_query_id 1.
Proof.
  apply (proj1 (Init_marks_coordinator example_sort example_create_instance_id
                  (new_schedule example_query_id example_request) example_initialised
                  example_init_defined eq_refl)).
  reflexivity.
Defined.

(** Node 2 of the example is the second node of fragment 1. *)
Lemma Init_node_tables_witness :
  vec_get (plan_node_to_fragment_idx_ example_initialised) 2 = Some 1
  /\ vec_get (plan_node_to_plan_node_idx_ example_initialised) 2 = Some 1
  /\ length (plan_node_to_fragment_idx_ example_initialised) = 4%nat
  /\ length (plan_node_to_plan_node_idx_ example_initialised) = 4%nat.
Proof.
  apply (Init_node_tables example_sort example_create_instance_id
           (new_schedule example_query_id example_request) example_initialised
           {| idx := 1; nodes := [ {| node_id := 1 |}; {| node_id := 2 |} ];
              stream_sink := Some 0 |}
           1%nat {| node_id := 2 |}).
  - exact example_init_defined.
  - exact example_nodes_distinct.
  - apply list_elem_of_In. vm_compute. auto.
  - reflexivity.
Defined.

(** Fragment 1 of the example receives from fragment 2. *)
Lemma Init_input_fragments_witness :
  [2] = idx <$> filter (feeds (plan_node_to_fragment_idx_ example_initialised) 1)
                  (all_fragments example_request).
Proof.
  apply (Init_input_fragments example_sort example_create_instance_id
           (new_schedule example_query_id example_request) example_initialised 1%nat
           {| fragment :=
                {| idx := 1; nodes := [ {| node_id := 1 |}; {| node_id := 2 |} ];
                   stream_sink := Some 0 |};
              is_coord_fragment := false; input_fragments := [2];
              instance_exec_params := []; scan_range_assignment := ∅ |}).
  - exact example_init_defined.
  - reflexivity.
  - vm_compute. reflexivity.
Defined.

Lemma Init_defined_witness :
  is_Some (FragmentPlan.Init example_sort example_create_instance_id
             (new_schedule example_query_id example_request)).
Proof.
  apply (Init_defined example_sort example_create_instance_id example_sort_perm
           example_query_id example_request).
  exact example_well_formed.
Defined.

Lemma Init_validates_witness : Validate example_initialised = true.
Proof.
  apply (Init_validates example_sort example_create_instance_id
           example_sort_perm example_sort_sorted
           (new_schedule example_query_id example_request) example_initialised).
  - exact example_init_defined.
  - reflexivity.
  - exact example_positions.
  - vm_compute. discriminate.
Defined.

(** Three ids after the coordinator's. *)
Lemma instance_ids_distinct_witness :
  exists ids this',
    take_instance_ids 3 example_initialised = Some (ids, this')
    /\ NoDup ids
    /\ lo <$> ids = seqZ 17 3
    /\ hi <$> ids = replicate 3 7
    /\ next_instance_id_ this' = {| hi := 7; lo := 17 + 3 |}.
Proof.
  apply (instance_ids_distinct 3 example_initialised).
  vm_compute. discriminate.
Defined.

(** The host of the example holds two and one scan ranges of node 0. *)
Lemma Validate_assignments_witness :
  "host1:22000"%string ∈ host <$> all_instances (fragment_exec_params_ example_assigned)
  /\ forall node ranges,
       ({[ 0 := [ScanRange 1; ScanRange 2; ScanRange 3] ]} : gmap Z _) !! node
         = Some ranges ->
       scan_range_counts (all_instances (fragment_exec_params_ example_assigned))
         "host1:22000" node <> []
       /\ Int32.to_signed
            (Z.of_nat
               (sum_list
                  (scan_range_counts
                     (all_instances (fragment_exec_params_ example_assigned))
                     "host1:22000" node)))
          = Z.of_nat (length ranges).
Proof.
  apply (Validate_assignments example_assigned example_scan_params).
  - vm_compute. reflexivity.
  - apply list_elem_of_here.
  - vm_compute. reflexivity.
Defined.

End FragmentPlanFacts.
